(** * Ulti Weavi Guy: job tracking, forms and the job lifecycle

    A shallow embedding of the TypeScript front end
    (JobStatus.tsx, ChatInterface.tsx, ScrapeForm.tsx) and of the job
    orchestration core that the front end talks to.

    Conventions of the embedding:
    - a JavaScript string is a [string], the sequence of bytes of its
      UTF-8 encoding (a string with a lone surrogate has none and is
      outside the model);
    - a JavaScript [number] that arrives in a JSON document is an exact
      rational [Q]; rounding to a double is not modelled;
    - an optional property [p?: T] is an [option T];
    - React state is threaded explicitly: an event handler is a function
      from the component state to the next one, together with the list
      of HTTP requests it sent;
    - a [Set<string>] is a duplicate-free list in insertion order. *)

From Stdlib Require Import Ascii String QArith Qreduction.
From stdpp Require Import gmap strings list fin_maps pretty.

Local Open Scope string_scope.

(* ===================================================================== *)
(** * Part I. Definitions                                                 *)
(* ===================================================================== *)

(** ** JavaScript primitives used by the components *)

Module JS.

(** A byte, by its value. *)
Definition byte (n : N) : ascii := ascii_of_N n.

(** The UTF-8 encoding of a code point. *)
Definition utf8 (code : N) : list ascii :=
  if (code <? 0x80)%N then [byte code]
  else if (code <? 0x800)%N then
    [byte (0xC0 + code / 0x40); byte (0x80 + code mod 0x40)]
  else if (code <? 0x10000)%N then
    [byte (0xE0 + code / 0x1000); byte (0x80 + (code / 0x40) mod 0x40);
     byte (0x80 + code mod 0x40)]
  else
    [byte (0xF0 + code / 0x40000); byte (0x80 + (code / 0x1000) mod 0x40);
     byte (0x80 + (code / 0x40) mod 0x40); byte (0x80 + code mod 0x40)].

(** The code points that [String.prototype.trim] removes, the WhiteSpace
    and LineTerminator productions of ECMAScript: TAB, LF, VT, FF, CR,
    SPACE, NO-BREAK SPACE, the other space separators of Unicode (OGHAM
    SPACE MARK, EN QUAD to HAIR SPACE, NARROW NO-BREAK SPACE, MEDIUM
    MATHEMATICAL SPACE, IDEOGRAPHIC SPACE), LINE SEPARATOR, PARAGRAPH
    SEPARATOR and ZERO WIDTH NO-BREAK SPACE. NEXT LINE, ZERO WIDTH SPACE
    and MONGOLIAN VOWEL SEPARATOR are not among them. *)
Definition white_space_code_points : list N :=
  [0x9; 0xA; 0xB; 0xC; 0xD; 0x20; 0xA0; 0x1680;
   0x2000; 0x2001; 0x2002; 0x2003; 0x2004; 0x2005; 0x2006; 0x2007; 0x2008;
   0x2009; 0x200A; 0x2028; 0x2029; 0x202F; 0x205F; 0x3000; 0xFEFF]%N.

(** Their encodings, as they occur in a string. *)
Definition white_space : list (list ascii) := utf8 <$> white_space_code_points.

(** What is left of a sequence of bytes after the encoding of [ws] it
    starts with, if it starts with one. *)
Definition skip (ws : list (list ascii)) (l : list ascii) : option (list ascii) :=
  match list_find (fun e => e `prefix_of` l) ws with
  | Some (_, e) => Some (drop (length e) l)
  | None => None
  end.

(** Removing encodings of [ws] from the start, one per unit of fuel,
    until none is left there. *)
Fixpoint strip (ws : list (list ascii)) (fuel : nat) (l : list ascii) : list ascii :=
  match fuel with
  | 0 => l
  | S fuel' =>
      match skip ws l with
      | Some rest => strip ws fuel' rest
      | None => l
      end
  end.

Definition trimStart (s : string) : string :=
  string_of_list_ascii
    (strip white_space (String.length s) (list_ascii_of_string s)).

Definition trimEnd (s : string) : string :=
  string_of_list_ascii
    (reverse (strip (reverse <$> white_space) (String.length s)
                    (reverse (list_ascii_of_string s)))).

(** [String.prototype.trim]. *)
Definition trim (s : string) : string := trimEnd (trimStart s).

(** ToBoolean on a string: only the empty string is falsy. *)
Definition truthy (s : string) : bool := negb (s =? "").

(** ToBoolean on an optional string property: [undefined] is falsy. *)
Definition truthy_opt (o : option string) : bool :=
  match o with
  | Some s => truthy s
  | None => false
  end.

(** Values of a JSON document, as [JSON.stringify] writes them and
    [response.json()] reads them. *)
#[local] Set Warnings "-register-all".
Inductive json : Type :=
  | JNull
  | JBool (b : bool)
  | JNum (n : Q)
  | JStr (s : string)
  | JArr (items : list json)
  | JObj (fields : list (string * json)).

(** Property lookup [o.k] on an object; [None] is [undefined]. *)
Fixpoint assoc (k : string) (fields : list (string * json)) : option json :=
  match fields with
  | [] => None
  | (k', v) :: rest => if k' =? k then Some v else assoc k rest
  end.

Definition get (k : string) (v : json) : option json :=
  match v with
  | JObj fields => assoc k fields
  | _ => None
  end.


(** [new Set(iterable)], [s.add(x)] and [s.delete(x)] on a set kept in
    insertion order. *)
Definition Set_add (x : string) (s : list string) : list string :=
  if bool_decide (x ∈ s) then s else s ++ [x].

Definition Set_new (l : list string) : list string :=
  foldl (fun s x => Set_add x s) [] l.

Definition Set_delete (x : string) (s : list string) : list string :=
  filter (fun y => y ≠ x) s.

(** Whether an optional property is set. *)
Definition is_set {A : Type} (o : option A) : bool :=
  match o with
  | Some _ => true
  | None => false
  end.

(** An optional property contributes a field only when it is set. *)
Definition opt_field (k : string) (o : option json) : list (string * json) :=
  match o with
  | Some v => [(k, v)]
  | None => []
  end.

End JS.

(** ** components/JobStatus.tsx *)

Module JobStatus.

Definition number := Q.

(** The inline type of [Job.result]. *)
Record JobResult := {
  collection_name : option string;
  documents_processed : option number;
  success : option bool;
}.

(** [interface Job]. *)
Record Job := {
  id : string;
  type : string;
  status : string;
  prompt : option string;
  progress : number;
  created_at : string;
  error : option string;
  result : option JobResult;
}.

(** The JavaScript object that a value of the inline result type is. *)
Definition JobResult_object (r : JobResult) : JS.json :=
  JS.JObj (JS.opt_field "collection_name" (JS.JStr <$> collection_name r)
        ++ JS.opt_field "documents_processed" (JS.JNum <$> documents_processed r)
        ++ JS.opt_field "success" (JS.JBool <$> success r)).

(** The JavaScript object that a value of [interface Job] is: one
    property per declared member, optional members only when set. *)
Definition Job_object (j : Job) : JS.json :=
  JS.JObj ([("id", JS.JStr (id j));
            ("type", JS.JStr (type j));
            ("status", JS.JStr (status j))]
        ++ JS.opt_field "prompt" (JS.JStr <$> prompt j)
        ++ [("progress", JS.JNum (progress j));
            ("created_at", JS.JStr (created_at j))]
        ++ JS.opt_field "error" (JS.JStr <$> error j)
        ++ JS.opt_field "result" (JobResult_object <$> result j)).

Definition getStatusColor (status : string) : string :=
  if status =? "completed" then "text-green-600 bg-green-100"
  else if status =? "failed" then "text-red-600 bg-red-100"
  else if status =? "running" then "text-blue-600 bg-blue-100"
  else if status =? "pending" then "text-yellow-600 bg-yellow-100"
  else "text-gray-600 bg-gray-100".

Definition getStatusIcon (status : string) : string :=
  if status =? "completed" then "✅"
  else if status =? "failed" then "❌"
  else if status =? "running" then "🔄"
  else if status =? "pending" then "⏳"
  else "❓".

(** *** What the component renders *)

(** The green box of a completed job. *)
Record ResultPanel := {
  shown_collection : option string;
  shown_documents : option number;
}.

(** One bordered card of the list. [card_time] keeps the raw
    [created_at]; the locale formatting of the date is not modelled.
    [card_progress_width] is the width of the bar in percent. *)
Record JobCard := {
  card_key : string;
  card_icon : string;
  card_badge_class : string;
  card_badge_text : string;
  card_time : string;
  card_prompt : option string;
  card_progress_width : option number;
  card_result : option ResultPanel;
  card_error : option string;
}.

Inductive View :=
  | NoJobsYet
  | JobList (cards : list JobCard) (view_all : option nat).

Definition is_active (status : string) : bool :=
  (status =? "running") || (status =? "pending").

Definition is_terminal (status : string) : bool :=
  (status =? "completed") || (status =? "failed").

Definition render_job (job : Job) : JobCard :=
  {| card_key := id job;
     card_icon := getStatusIcon (status job);
     card_badge_class := getStatusColor (status job);
     card_badge_text := status job;
     card_time := created_at job;
     card_prompt :=
       if JS.truthy_opt (prompt job) then prompt job else None;
     card_progress_width :=
       if is_active (status job) then Some (progress job * 100)%Q else None;
     card_result :=
       if status job =? "completed" then
         match result job with
         | Some r => Some {| shown_collection := collection_name r;
                             shown_documents := documents_processed r |}
         | None => None
         end
       else None;
     card_error :=
       if (status job =? "failed") && JS.truthy_opt (error job) then
         (fun e => "❌ Error: " ++ e) <$> error job
       else None |}.

(** The body of the component for the current [jobs] state. *)
Definition render (jobs : list Job) : View :=
  if (length jobs =? 0)%nat then NoJobsYet
  else JobList (render_job <$> take 5 jobs)
               (if (5 <? length jobs)%nat then Some (length jobs) else None).

Definition cards_of (v : View) : list JobCard :=
  match v with
  | NoJobsYet => []
  | JobList cards _ => cards
  end.

Definition view_all_of (v : View) : option nat :=
  match v with
  | NoJobsYet => None
  | JobList _ view_all => view_all
  end.

(** *** Polling *)

(** The two pieces of component state. *)
Record State := {
  jobs : list Job;
  pollingJobs : list string;
}.

(** Outcome of [fetch(`${API}/jobs/${jobId}`)] followed by
    [response.json()]: a 2xx answer with its body, another status, or a
    rejected promise (caught and logged). *)
Inductive FetchResult :=
  | Ok (jobData : Job)
  | NotOk
  | Threw.

(** Period of the [setInterval] timer, in milliseconds. *)
Definition POLL_INTERVAL_MS : nat := 2000.

(** [updatedJobs.findIndex(j => j.id === jobId)]; [None] is [-1]. *)
Definition findIndex (jobId : string) (l : list Job) : option nat :=
  fst <$> list_find (fun j => id j = jobId) l.

(** Local variables of the interval callback, the polling set as the
    queued [setPollingJobs] updaters leave it, and the requests sent. *)
Record Loop := {
  updatedJobs : list Job;
  hasUpdates : bool;
  nextPolling : list string;
  requested : list string;
}.

(** One iteration of [for (const jobId of pollingJobs)]. *)
Definition poll_one (fetch : string -> FetchResult) (st : Loop) (jobId : string)
  : Loop :=
  let st := {| updatedJobs := updatedJobs st;
               hasUpdates := hasUpdates st;
               nextPolling := nextPolling st;
               requested := requested st ++ [jobId] |} in
  match fetch jobId with
  | Ok jobData =>
      match findIndex jobId (updatedJobs st) with
      | Some jobIndex =>
          {| updatedJobs := <[jobIndex := jobData]> (updatedJobs st);
             hasUpdates := true;
             nextPolling :=
               if is_terminal (status jobData)
               then JS.Set_delete jobId (nextPolling st)
               else nextPolling st;
             requested := requested st |}
      | None => st
      end
  | NotOk => st
  | Threw => st
  end.

(** The second effect, with dependency [jobs]: the polling set becomes
    the ids of the jobs that are running or pending. *)
Definition track_active (s : State) : State :=
  {| jobs := jobs s;
     pollingJobs :=
       JS.Set_new (id <$> filter (fun job => is_active (status job) = true) (jobs s)) |}.

(** First render: [useState(initialJobs)], an empty polling set, then
    the effects of the mount. *)
Definition mount (initialJobs : list Job) : State :=
  track_active {| jobs := initialJobs; pollingJobs := [] |}.

(** One firing of the interval callback during which nothing else
    happens: the callback runs to completion before the interval fires
    again, followed by the effects of the re-render it causes. The
    result is the next state and the job ids that were fetched, in
    order. Firings that overlap are the matter of [JobStatusAsync]. *)
Definition tick (fetch : string -> FetchResult) (s : State)
  : State * list string :=
  if (length (pollingJobs s) =? 0)%nat then (s, [])
  else
    let st := foldl (poll_one fetch)
                    {| updatedJobs := jobs s;
                       hasUpdates := false;
                       nextPolling := pollingJobs s;
                       requested := [] |}
                    (pollingJobs s) in
    if hasUpdates st
    then (track_active {| jobs := updatedJobs st; pollingJobs := nextPolling st |},
          requested st)
    else ({| jobs := jobs s; pollingJobs := nextPolling st |}, requested st).

(** Successive firings that do not overlap, one answer function per
    firing; the second component collects the ids fetched at each
    firing. *)
Fixpoint ticks (fetches : list (string -> FetchResult)) (s : State)
  : State * list (list string) :=
  match fetches with
  | [] => (s, [])
  | fetch :: rest =>
      let '(s1, reqs) := tick fetch s in
      let '(s2, log) := ticks rest s1 in
      (s2, reqs :: log)
  end.

(** What one firing amounts to for one entry of the list: an entry whose
    id is in the polled set and whose query is answered with a 2xx is
    replaced by the answer; every other entry is kept. *)
Definition refresh (fetch : string -> FetchResult) (polled : list string)
  (job : Job) : Job :=
  if bool_decide (id job ∈ polled) then
    match fetch (id job) with
    | Ok jobData => jobData
    | NotOk => job
    | Threw => job
    end
  else job.

(** The state between two firings: ids are unique and the polling set
    is the set of ids of the running and pending jobs. *)
Definition consistent (s : State) : Prop :=
  NoDup (id <$> jobs s)
  ∧ pollingJobs s
    = JS.Set_new (id <$> filter (fun job => is_active (status job) = true) (jobs s)).

(** A server answers a status query with the record of the job asked for. *)
Definition answers_for_requested_id (fetch : string -> FetchResult) : Prop :=
  forall jobId jobData, fetch jobId = Ok jobData -> id jobData = jobId.

(** *** The wording of the specification, for comparison *)



Definition spec_statuses : list string :=
  ["pending"; "running"; "completed"; "failed"].


(** A structured error as the specification words it: an object with
    exactly the two string fields [kind] and [message]. *)
Definition is_structured_error (e : JS.json) : bool :=
  match e with
  | JS.JObj [(k1, JS.JStr _); (k2, JS.JStr _)] =>
      ((k1 =? "kind") && (k2 =? "message"))
      || ((k1 =? "message") && (k2 =? "kind"))
  | _ => false
  end.

(** *** Sample data *)

Definition sample_running : Job :=
  {| id := "job-1"; type := "scrape"; status := "running";
     prompt := Some "Scrape articles from https://example.com/blog";
     progress := (1 # 2)%Q; created_at := "2024-05-01T10:00:00Z";
     error := None; result := None |}.

Definition sample_pending : Job :=
  {| id := "job-2"; type := "scrape"; status := "pending";
     prompt := Some "Process PDF files in my /documents folder";
     progress := 0%Q; created_at := "2024-05-01T10:01:00Z";
     error := None; result := None |}.

Definition sample_completed : Job :=
  {| id := "job-1"; type := "scrape"; status := "completed";
     prompt := Some "Scrape articles from https://example.com/blog";
     progress := 1%Q; created_at := "2024-05-01T10:00:00Z";
     error := None;
     result := Some {| collection_name := Some "Blog";
                       documents_processed := Some 10%Q;
                       success := Some true |} |}.

Definition sample_failed : Job :=
  {| id := "job-2"; type := "scrape"; status := "failed";
     prompt := Some "Process PDF files in my /documents folder";
     progress := (1 # 4)%Q; created_at := "2024-05-01T10:01:00Z";
     error := Some "Embedding request timed out";
     result := None |}.


(** A server on which job-1 has completed and nothing else answers. *)
Definition sample_server (jobId : string) : FetchResult :=
  if jobId =? "job-1" then Ok sample_completed else NotOk.

Definition server_down (jobId : string) : FetchResult := Threw.

End JobStatus.

(** ** components/ChatInterface.tsx *)

Module ChatInterface.

(** The [type] prop: ['data' | 'config']. *)
Inductive ChatType := data | config.

Definition ChatType_string (t : ChatType) : string :=
  match t with
  | data => "data"
  | config => "config"
  end.

Record Collection := {
  name : string;
  description : string;
  count : Q;
}.

Inductive Sender := user | assistant.

(** [interface Message]; [id] and [timestamp] keep the millisecond clock
    value they are made from. *)
Record Message := {
  id : nat;
  type : Sender;
  content : string;
  timestamp : nat;
}.

Record State := {
  messages : list Message;
  input : string;
  selectedCollection : string;
  isLoading : bool;
}.

Definition initial : State :=
  {| messages := []; input := ""; selectedCollection := ""; isLoading := false |}.

(** A POST request: the path below [NEXT_PUBLIC_API_URL] and the JSON
    document passed to [JSON.stringify]. *)
Record Request := {
  path : string;
  body : JS.json;
}.

(** Outcome of the request: a 2xx answer with [data.response], another
    status, or a rejected promise with the message of its [Error], if any. *)
Inductive Response :=
  | Answered (response : string)
  | HttpError (status : nat)
  | Threw (message : option string).

Definition chat_request (type : ChatType) (selectedCollection content : string)
  : Request :=
  {| path := "/chat";
     body := JS.JObj
       [("message", JS.JStr content);
        ("context_collection",
          match type with
          | data => JS.JStr selectedCollection
          | config => JS.JNull
          end);
        ("chat_type", JS.JStr (ChatType_string type))] |}.

(** [handleSubmit], run to completion at clock value [now] against the
    answer [respond] gives. *)
Definition handleSubmit (type : ChatType) (now : nat)
  (respond : Request -> Response) (s : State) : State * list Request :=
  if negb (JS.truthy (JS.trim (input s))) then (s, [])
  else
    let userMessage :=
      {| id := now; type := user; content := JS.trim (input s); timestamp := now |} in
    let req := chat_request type (selectedCollection s) (content userMessage) in
    let reply :=
      match respond req with
      | Answered response => response
      | HttpError status => "Error: " ++ ("HTTP error! status: " ++ pretty status)
      | Threw (Some message) => "Error: " ++ message
      | Threw None => "Error: " ++ "Failed to get response"
      end in
    let answer :=
      {| id := now + 1; type := assistant; content := reply; timestamp := now |} in
    ({| messages := messages s ++ [userMessage; answer];
        input := "";
        selectedCollection := selectedCollection s;
        isLoading := false |},
     [req]).

(** The values of the [<option>]s of the collection selector. *)
Definition collection_options (collections : list Collection) : list string :=
  "" :: (name <$> collections).

(** Whether the selector is rendered. *)
Definition selector_shown (type : ChatType) (collections : list Collection) : bool :=
  match type with
  | data => negb (length collections =? 0)%nat
  | config => false
  end.

(** What can happen to the component. A change of the selector carries
    the [collections] prop of the render in which it happens and the
    position of the chosen [<option>]. *)
Inductive Event :=
  | ChangeInput (value : string)
  | ChangeCollection (collections : list Collection) (index : nat)
  | Submit (now : nat) (respond : Request -> Response)
  | ClearChat.

Definition step (type : ChatType) (s : State) (e : Event)
  : State * list Request :=
  match e with
  | ChangeInput value =>
      ({| messages := messages s; input := value;
          selectedCollection := selectedCollection s;
          isLoading := isLoading s |}, [])
  | ChangeCollection collections index =>
      match collection_options collections !! index with
      | Some value =>
          if selector_shown type collections then
            ({| messages := messages s; input := input s;
                selectedCollection := value;
                isLoading := isLoading s |}, [])
          else (s, [])
      | None => (s, [])
      end
  | Submit now respond => handleSubmit type now respond s
  | ClearChat =>
      ({| messages := []; input := input s;
          selectedCollection := selectedCollection s;
          isLoading := isLoading s |}, [])
  end.

(** A session: the events in order, with every request sent. *)
Fixpoint run (type : ChatType) (events : list Event) (s : State)
  : State * list Request :=
  match events with
  | [] => (s, [])
  | e :: rest =>
      let '(s1, reqs) := step type s e in
      let '(s2, more) := run type rest s1 in
      (s2, (reqs ++ more)%list)
  end.

(** The value an event picks in the selector: that of the chosen
    [<option>], when the event is a change of the selector and the
    selector is rendered. *)
Definition picked (type : ChatType) (e : Event) : option string :=
  match e with
  | ChangeCollection collections index =>
      if selector_shown type collections
      then collection_options collections !! index
      else None
  | _ => None
  end.

(** The selection in force after a sequence of events: the value picked
    last, or the empty string of the "All collections" option when none
    was picked. *)
Definition selection_after (type : ChatType) (events : list Event) : string :=
  default "" (last (omap (picked type) events)).

Definition sample_collections : list Collection :=
  [{| name := "Blog"; description := "Blog posts"; count := 10%Q |};
   {| name := "News"; description := ""; count := 3%Q |}].

Definition echo (r : Request) : Response := Answered "ok".

End ChatInterface.

(** ** components/ScrapeForm.tsx *)

Module ScrapeForm.

Record State := {
  prompt : string;
  sourceType : string;
  isLoading : bool;
  error : string;
}.

Definition initial : State :=
  {| prompt := ""; sourceType := "auto"; isLoading := false; error := "" |}.

(** The [<option>]s of the method selector: value and label. *)
Definition sourceType_options : list (string * string) :=
  [("auto", "Auto-detect");
   ("firecrawl", "Firecrawl (Web crawling)");
   ("apify", "Apify (Advanced scraping)");
   ("local", "Local files")].

Record Request := {
  path : string;
  body : JS.json;
}.

(** Outcome of the request: a 2xx answer with [data.job_id], another
    status, or a rejected promise with the message of its [Error], if any. *)
Inductive Response :=
  | Created (job_id : string)
  | HttpError (status : nat)
  | Threw (message : option string).

Definition scrape_request (prompt sourceType : string) : Request :=
  {| path := "/scrape";
     body := JS.JObj [("prompt", JS.JStr (JS.trim prompt));
                      ("source_type", JS.JStr sourceType)] |}.

(** What a run of a handler leaves behind: the next state, the requests
    sent, and the job ids passed to [onJobCreated]. *)
Record Outcome := {
  next : State;
  sent : list Request;
  created : list string;
}.

(** [handleSubmit], run to completion against the answer [respond] gives. *)
Definition handleSubmit (respond : Request -> Response) (s : State) : Outcome :=
  if negb (JS.truthy (JS.trim (prompt s))) then
    {| next := s; sent := []; created := [] |}
  else
    let req := scrape_request (prompt s) (sourceType s) in
    match respond req with
    | Created job_id =>
        {| next := {| prompt := ""; sourceType := sourceType s;
                      isLoading := false; error := "" |};
           sent := [req]; created := [job_id] |}
    | HttpError status =>
        {| next := {| prompt := prompt s; sourceType := sourceType s;
                      isLoading := false;
                      error := "HTTP error! status: " ++ pretty status |};
           sent := [req]; created := [] |}
    | Threw (Some message) =>
        {| next := {| prompt := prompt s; sourceType := sourceType s;
                      isLoading := false; error := message |};
           sent := [req]; created := [] |}
    | Threw None =>
        {| next := {| prompt := prompt s; sourceType := sourceType s;
                      isLoading := false;
                      error := "Failed to start scraping job" |};
           sent := [req]; created := [] |}
    end.

Inductive Event :=
  | ChangePrompt (value : string)
  | ChangeSourceType (index : nat)
  | Submit (respond : Request -> Response).

Definition step (s : State) (e : Event) : Outcome :=
  match e with
  | ChangePrompt value =>
      {| next := {| prompt := value; sourceType := sourceType s;
                    isLoading := isLoading s; error := error s |};
         sent := []; created := [] |}
  | ChangeSourceType index =>
      match sourceType_options !! index with
      | Some (value, _) =>
          {| next := {| prompt := prompt s; sourceType := value;
                        isLoading := isLoading s; error := error s |};
             sent := []; created := [] |}
      | None => {| next := s; sent := []; created := [] |}
      end
  | Submit respond => handleSubmit respond s
  end.

(** A session: the events in order, with every request sent and every
    job id reported. *)
Fixpoint run (events : list Event) (s : State) : Outcome :=
  match events with
  | [] => {| next := s; sent := []; created := [] |}
  | e :: rest =>
      let o1 := step s e in
      let o2 := run rest (next o1) in
      {| next := next o2;
         sent := sent o1 ++ sent o2;
         created := created o1 ++ created o2 |}
  end.

(** The source-type hints as the specification words them. *)
Definition spec_source_type_hints : list string :=
  ["auto"; "remote-crawl"; "advanced-crawl"; "local"].

(** The values the form can transmit. *)
Definition source_type_values : list string :=
  ["auto"; "firecrawl"; "apify"; "local"].

Definition accept (r : Request) : Response := Created "job-1".

End ScrapeForm.

(** ** The job orchestration core

    The engine that accepts submissions and runs the pipelines (JobStore,
    Orchestrator, the workers) is the back end behind the [/scrape] and
    [/jobs/{id}] routes. Its code is not among the sources, which hold
    the front end that calls it. It is modelled here from its
    specification, as a state machine over events:
    a submission, the pickup of a pending job by a worker, and the
    success or failure of the stage a running job is at. Which events may
    occur when (pool width, queue order, timing) is left open: every
    interleaving is a run. *)

Module Orchestrator.

(** Modelled from the spec: the task kinds
    {scrape, local-upload, chat-query, config-command}. *)
Inductive Kind := scrape | local_upload | chat_query | config_command.

(** Modelled from the spec: the lifecycle states of a job. *)
Inductive Status := pending | running | completed | failed.

(** Modelled from the spec: completed and failed are the terminal states. *)
Definition is_terminal (st : Status) : bool :=
  match st with
  | completed | failed => true
  | pending | running => false
  end.

(** Modelled from the spec: the source-type hint of a scrape submission. *)
Inductive SourceTypeHint := auto | remote_crawl | advanced_crawl | local.

(** Modelled from the spec: the submission input, a prompt with its hint
    or a sequence of file references. *)
Inductive Input :=
  | PromptInput (prompt : string) (sourceTypeHint : SourceTypeHint)
  | FilesInput (files : list string).

(** Modelled from the spec: "validates input is non-empty for the kind". *)
Definition input_nonempty (i : Input) : bool :=
  match i with
  | PromptInput prompt _ => negb (prompt =? "")
  | FilesInput files => negb (length files =? 0)%nat
  end.

(** Modelled from the spec: the error taxonomy. *)
Inductive ErrorKind :=
  | ValidationError
  | UnresolvableSourceError
  | ExtractionError
  | EmbeddingError
  | UpsertError
  | CancelledError.

(** Modelled from the spec: the structured error [{kind, message}] of a
    failed job. *)
Record JobError := {
  error_kind : ErrorKind;
  message : string;
}.

(** Modelled from the spec: the result payload of a completed job
    (collection name, document count). *)
Record Result := {
  collectionName : string;
  documentsProcessed : nat;
}.

(** Modelled from the spec: the Job record of the data model. The opaque
    identifier is a sequence number; timestamps are readings of a
    logical clock. *)
Record Job := {
  id : nat;
  kind : Kind;
  status : Status;
  progress : Q;
  input : Input;
  result : option Result;
  error : option JobError;
  createdAt : nat;
  updatedAt : nat;
}.

(** Modelled from the spec: the JobStore, a mapping from job identifier
    to record, with the next identifier to hand out. *)
Record JobStore := {
  records : gmap nat Job;
  next_id : nat;
}.

Definition empty_store : JobStore := {| records := ∅; next_id := 0 |}.

(** Modelled from the spec: [Create(job) -> id]. *)
Definition Create (j : Job) (st : JobStore) : nat * JobStore :=
  let i := next_id st in
  (i, {| records := <[i := {| id := i; kind := kind j; status := status j;
                             progress := progress j; input := input j;
                             result := result j; error := error j;
                             createdAt := createdAt j;
                             updatedAt := updatedAt j |}]> (records st);
         next_id := S i |}).

(** Modelled from the spec: [Get(id) -> (snapshot, found)]; [None] is
    not-found. *)
Definition Get (i : nat) (st : JobStore) : option Job := records st !! i.

(** Modelled from the spec: [Update(id, mutatorFn) -> error]; [None] is
    the not-found error. *)
Definition Update (i : nat) (f : Job -> Job) (st : JobStore) : option JobStore :=
  match records st !! i with
  | Some j => Some {| records := <[i := f j]> (records st); next_id := next_id st |}
  | None => None
  end.

(** Modelled from the spec: [List(limit, offset)], most recent first. *)
Definition List (limit offset : nat) (st : JobStore) : list Job :=
  take limit (drop offset (omap (fun i => records st !! i) (rev (seq 0 (next_id st))))).

(** Modelled from the spec: the state of the engine, the store, the
    number of stages each running pipeline has completed, and the clock. *)
Record System := {
  store : JobStore;
  stages_done : gmap nat nat;
  clock : nat;
}.

Definition initial : System :=
  {| store := empty_store; stages_done := ∅; clock := 0 |}.

(** Modelled from the spec: [Query(jobId) -> snapshot | not-found]. *)
Definition Query (i : nat) (s : System) : option Job := Get i (store s).

(** Modelled from the spec: what happens to the engine. *)
Inductive Event :=
  | Submit (k : Kind) (i : Input)
  | Pickup (jobId : nat)
  | StageSucceeded (jobId : nat) (out : Result)
  | StageFailed (jobId : nat) (e : JobError).

(** Modelled from the spec: what the caller of an operation gets back. *)
Inductive Reply :=
  | Accepted (jobId : nat)
  | Rejected (e : ErrorKind)
  | NoReply.

(** Modelled from the spec: pending to running, on pickup. *)
Definition start_job (now : nat) (j : Job) : Job :=
  {| id := id j; kind := kind j; status := running; progress := progress j;
     input := input j; result := result j; error := error j;
     createdAt := createdAt j; updatedAt := now |}.

(** Modelled from the spec: a stage completed, with the progress reached
    and, when it was the last stage, the result of the pipeline. *)
Definition advance_job (p : Q) (finished : option Result) (now : nat) (j : Job) : Job :=
  {| id := id j; kind := kind j;
     status := match finished with Some _ => completed | None => running end;
     progress := p; input := input j; result := finished; error := error j;
     createdAt := createdAt j; updatedAt := now |}.

(** Modelled from the spec: the job is marked failed with the structured
    error; progress is left as it is. *)
Definition fail_job (e : JobError) (now : nat) (j : Job) : Job :=
  {| id := id j; kind := kind j; status := failed; progress := progress j;
     input := input j; result := result j; error := Some e;
     createdAt := createdAt j; updatedAt := now |}.

Section Pipeline.

(** Modelled from the spec: "each stage declares a relative weight";
    the weights of the stages of the pipeline of each kind, in order. *)
Variable stage_weights : Kind -> list nat.

(** Modelled from the spec: "after stage i of n completes, progress =
    (sum of weights of stages 1..i) / (sum of all weights)", as a
    rational in lowest terms. *)
Definition progress_after (k : Kind) (i : nat) : Q :=
  Qred (inject_Z (Z.of_nat (sum_list (take i (stage_weights k))))
        / inject_Z (Z.of_nat (sum_list (stage_weights k)))).

(** Modelled from the spec: the transitions of the engine. [Submit]
    validates, creates the pending job with progress 0 and answers with
    its id, or rejects with [ValidationError] and creates nothing.
    [Pickup] moves a pending job to running. [StageSucceeded] advances a
    running job by one stage and completes it after the last one.
    [StageFailed] fails a running job. Any other event changes nothing. *)
Definition step (s : System) (e : Event) : System * Reply :=
  match e with
  | Submit k i =>
      if input_nonempty i then
        let '(jobId, st) :=
          Create {| id := 0; kind := k; status := pending; progress := 0;
                    input := i; result := None; error := None;
                    createdAt := clock s; updatedAt := clock s |} (store s) in
        ({| store := st; stages_done := stages_done s; clock := S (clock s) |},
         Accepted jobId)
      else (s, Rejected ValidationError)
  | Pickup jobId =>
      match Get jobId (store s) with
      | Some j =>
          match status j, Update jobId (start_job (clock s)) (store s) with
          | pending, Some st =>
              ({| store := st; stages_done := <[jobId := 0%nat]> (stages_done s);
                  clock := S (clock s) |}, NoReply)
          | _, _ => (s, NoReply)
          end
      | None => (s, NoReply)
      end
  | StageSucceeded jobId out =>
      match Get jobId (store s), stages_done s !! jobId with
      | Some j, Some reached =>
          let n := length (stage_weights (kind j)) in
          let finished := if (S reached =? n)%nat then Some out else None in
          match status j,
                Update jobId
                  (advance_job (progress_after (kind j) (S reached)) finished (clock s))
                  (store s) with
          | running, Some st =>
              if (reached <? n)%nat then
                ({| store := st;
                    stages_done :=
                      match finished with
                      | Some _ => delete jobId (stages_done s)
                      | None => <[jobId := S reached]> (stages_done s)
                      end;
                    clock := S (clock s) |}, NoReply)
              else (s, NoReply)
          | _, _ => (s, NoReply)
          end
      | _, _ => (s, NoReply)
      end
  | StageFailed jobId e =>
      match Get jobId (store s) with
      | Some j =>
          match status j, Update jobId (fail_job e (clock s)) (store s) with
          | running, Some st =>
              ({| store := st; stages_done := delete jobId (stages_done s);
                  clock := S (clock s) |}, NoReply)
          | _, _ => (s, NoReply)
          end
      | None => (s, NoReply)
      end
  end.

(** Modelled from the spec: one more event, with the reply appended to
    the log of replies. *)
Definition exec (acc : System * list Reply) (e : Event) : System * list Reply :=
  (fst (step (fst acc) e), (snd acc ++ [snd (step (fst acc) e)])%list).

(** Modelled from the spec: a run of the engine from its initial state. *)
Definition run (events : list Event) : System * list Reply :=
  foldl exec (initial, []) events.

(** What holds of every record of every run. *)
Definition job_ok (s : System) (j : Job) : Prop :=
  input_nonempty (input j) = true
  ∧ match status j with
    | pending =>
        progress j = 0%Q ∧ result j = None ∧ error j = None
    | running =>
        (∃ reached, stages_done s !! id j = Some reached
                 ∧ (reached ≤ length (stage_weights (kind j)))%nat
                 ∧ progress j = progress_after (kind j) reached)
        ∧ result j = None ∧ error j = None
    | completed =>
        progress j = progress_after (kind j) (length (stage_weights (kind j)))
        ∧ is_Some (result j) ∧ error j = None
    | failed =>
        (∃ reached, progress j = progress_after (kind j) reached)
        ∧ result j = None ∧ is_Some (error j)
    end.

Definition system_ok (s : System) : Prop :=
  ∀ i j, records (store s) !! i = Some j →
         id j = i ∧ (i < next_id (store s))%nat ∧ job_ok s j.

End Pipeline.

(** Modelled from the spec: the default equal split, with four stages
    for a prompt-driven pipeline and three for an upload, which skips
    source resolution. *)
Definition equal_split (k : Kind) : list nat :=
  match k with
  | local_upload => [1; 1; 1]%nat
  | _ => [1; 1; 1; 1]%nat
  end.

(** Modelled from the spec: the scenario of a scrape of a blog that ends
    with ten documents processed. *)
Definition scenario_events : list Event :=
  [Submit scrape (PromptInput "Scrape articles from https://example.com/blog" auto);
   Pickup 0;
   StageSucceeded 0 {| collectionName := "Blog"; documentsProcessed := 0 |};
   StageSucceeded 0 {| collectionName := "Blog"; documentsProcessed := 10 |};
   StageSucceeded 0 {| collectionName := "Blog"; documentsProcessed := 10 |};
   StageSucceeded 0 {| collectionName := "Blog"; documentsProcessed := 10 |}].

(** The record of the scenario after two of its four stages. *)
Definition scenario_halfway : Job :=
  {| id := 0; kind := scrape; status := running; progress := (1 # 2)%Q;
     input := PromptInput "Scrape articles from https://example.com/blog" auto;
     result := None; error := None; createdAt := 0; updatedAt := 3 |}.

(** The record of the scenario at its end. *)
Definition scenario_completed : Job :=
  {| id := 0; kind := scrape; status := completed; progress := 1%Q;
     input := PromptInput "Scrape articles from https://example.com/blog" auto;
     result := Some {| collectionName := "Blog"; documentsProcessed := 10 |};
     error := None; createdAt := 0; updatedAt := 5 |}.

End Orchestrator.

(** ** Further observations on strings and on the components above *)

Module JSMore.
Import JS.

(** Whether a sequence of bytes is made of encodings of [ws] only. *)
Fixpoint only (ws : list (list ascii)) (fuel : nat) (l : list ascii) : bool :=
  match l with
  | [] => true
  | _ :: _ =>
      match fuel with
      | 0 => false
      | S fuel' =>
          match skip ws l with
          | Some rest => only ws fuel' rest
          | None => false
          end
      end
  end.

(** Whether a string is made of white space only (the empty string is). *)
Definition blank (s : string) : bool :=
  only white_space (String.length s) (list_ascii_of_string s).

(** Whether the first character of a string is white space. *)
Definition starts_with_space (s : string) : bool :=
  match skip white_space (list_ascii_of_string s) with
  | Some _ => true
  | None => false
  end.

(** Whether the last character of a string is white space. *)
Definition ends_with_space (s : string) : bool :=
  match skip (reverse <$> white_space) (reverse (list_ascii_of_string s)) with
  | Some _ => true
  | None => false
  end.

(** Strings of one white-space character that is not ASCII. *)
Definition no_break_space : string := string_of_list_ascii (utf8 0xA0).

Definition ideographic_space : string := string_of_list_ascii (utf8 0x3000).

Definition byte_order_mark : string := string_of_list_ascii (utf8 0xFEFF).

End JSMore.

Module ChatInterfaceView.
Import ChatInterface.

(** [disabled={isLoading || !input.trim()}] of the Send button. *)
Definition send_disabled (s : State) : bool :=
  isLoading s || negb (JS.truthy (JS.trim (input s))).

(** [messages.length > 0 && ...]: whether the Clear button is rendered. *)
Definition clear_shown (s : State) : bool :=
  (0 <? length (messages s))%nat.

(** A transcript made of exchanges: a user message, then the
    assistant's message that answers it. *)
Fixpoint exchanges (ms : list Message) : bool :=
  match ms with
  | [] => true
  | u :: a :: rest =>
      match type u, type a with
      | user, assistant => exchanges rest
      | _, _ => false
      end
  | [_] => false
  end.

Definition is_submit (e : Event) : bool :=
  match e with
  | Submit _ _ => true
  | _ => false
  end.

(** The number of [Submit] events of a session. *)
Definition submissions (events : list Event) : nat :=
  length (filter (fun e => is_submit e = true) events).

End ChatInterfaceView.

Module ScrapeFormView.
Import ScrapeForm.

(** [disabled={isLoading || !prompt.trim()}] of the submit button. *)
Definition submit_disabled (s : State) : bool :=
  isLoading s || negb (JS.truthy (JS.trim (prompt s))).

(** [error && ...]: the text of the red box, when it is rendered. *)
Definition error_box (s : State) : option string :=
  if JS.truthy (error s) then Some (error s) else None.

(** The prompt a request carries. *)
Definition request_prompt (r : Request) : option JS.json :=
  JS.get "prompt" (body r).

(** A server that is unavailable. *)
Definition refuse (r : Request) : Response := HttpError 503.

End ScrapeFormView.

(** ** components/CollectionsList.tsx *)

Module CollectionsList.

(** An element of [Collection.properties]; its [name] member is
    [property_name] here. *)
Record Property := {
  property_name : string;
  dataType : string;
}.

(** [interface Collection]. *)
Record Collection := {
  name : string;
  description : string;
  count : Q;
  created_at : option string;
  properties : option (list Property);
}.

Record State := {
  collections : list Collection;
  isLoading : bool;
  error : string;
  selectedCollection : string;
}.

Definition initial : State :=
  {| collections := []; isLoading := true; error := ""; selectedCollection := "" |}.

Inductive Method := GET | DELETE.

Record Request := {
  method : Method;
  path : string;
}.

(** Outcome of a request: a 2xx answer whose JSON body has the given
    [collections] member ([None] when it is missing or null), another
    status, or a rejected promise with the message of its [Error], if any. *)
Inductive Response :=
  | Answered (collections : option (list Collection))
  | HttpError (status : nat)
  | Threw (message : option string).

(** What a run of a handler leaves behind: the next state, the requests
    sent in order, and the collections passed to [onCollectionSelect]. *)
Record Outcome := {
  next : State;
  sent : list Request;
  notified : list Collection;
}.

Definition list_request : Request := {| method := GET; path := "/collections" |}.

Definition delete_request (collectionName : string) : Request :=
  {| method := DELETE; path := "/collections/" ++ collectionName |}.

(** [fetchCollections], run to completion. *)
Definition fetchCollections (respond : Request -> Response) (s : State) : Outcome :=
  match respond list_request with
  | Answered found =>
      {| next := {| collections := default [] found; isLoading := false;
                    error := ""; selectedCollection := selectedCollection s |};
         sent := [list_request]; notified := [] |}
  | HttpError status =>
      {| next := {| collections := collections s; isLoading := false;
                    error := "HTTP error! status: " ++ pretty status;
                    selectedCollection := selectedCollection s |};
         sent := [list_request]; notified := [] |}
  | Threw (Some message) =>
      {| next := {| collections := collections s; isLoading := false;
                    error := message;
                    selectedCollection := selectedCollection s |};
         sent := [list_request]; notified := [] |}
  | Threw None =>
      {| next := {| collections := collections s; isLoading := false;
                    error := "Failed to fetch collections";
                    selectedCollection := selectedCollection s |};
         sent := [list_request]; notified := [] |}
  end.

(** [handleCollectionClick]; [has_callback] tells whether the optional
    [onCollectionSelect] prop was given. *)
Definition handleCollectionClick (has_callback : bool) (collection : Collection)
  (s : State) : Outcome :=
  {| next := {| collections := collections s; isLoading := isLoading s;
                error := error s; selectedCollection := name collection |};
     sent := [];
     notified := if has_callback then [collection] else [] |}.

(** [handleDeleteCollection], run to completion; [confirmed] is the
    answer to the [confirm] dialog. *)
Definition handleDeleteCollection (confirmed : bool)
  (respond : Request -> Response) (collectionName : string) (s : State)
  : Outcome :=
  if negb confirmed then {| next := s; sent := []; notified := [] |}
  else
    let failed message :=
      {| next := {| collections := collections s; isLoading := isLoading s;
                    error := message;
                    selectedCollection := selectedCollection s |};
         sent := [delete_request collectionName]; notified := [] |} in
    match respond (delete_request collectionName) with
    | Answered _ =>
        let o := fetchCollections respond
                   {| collections := collections s; isLoading := true;
                      error := error s;
                      selectedCollection := selectedCollection s |} in
        {| next := next o;
           sent := delete_request collectionName :: sent o;
           notified := [] |}
    | HttpError status => failed ("HTTP error! status: " ++ pretty status)
    | Threw (Some message) => failed message
    | Threw None => failed "Failed to delete collection"
    end.

(** *** What the component renders *)

(** The strip of property names of a card: the first three names and,
    beyond three, the number of those left out. *)
Definition preview (c : Collection) : list string * option nat :=
  match properties c with
  | Some ps =>
      if (0 <? length ps)%nat then
        (property_name <$> take 3 ps,
         if (3 <? length ps)%nat then Some (length ps - 3)%nat else None)
      else ([], None)
  | None => ([], None)
  end.

Record Card := {
  card_key : string;
  card_highlighted : bool;
  card_description : option string;
  card_count : Q;
  card_created_at : option string;
  card_properties : list string;
  card_more : option nat;
}.

Definition render_card (selected : string) (c : Collection) : Card :=
  {| card_key := name c;
     card_highlighted := selected =? name c;
     card_description :=
       if JS.truthy (description c) then Some (description c) else None;
     card_count := count c;
     card_created_at :=
       if JS.truthy_opt (created_at c) then created_at c else None;
     card_properties := fst (preview c);
     card_more := snd (preview c) |}.

Inductive View :=
  | LoadingView
  | ErrorView (message : string)
  | EmptyView
  | GridView (total : nat) (cards : list Card).

Definition render (s : State) : View :=
  if isLoading s then LoadingView
  else if JS.truthy (error s) then ErrorView (error s)
  else if (length (collections s) =? 0)%nat then EmptyView
  else GridView (length (collections s))
                (render_card (selectedCollection s) <$> collections s).

Inductive Event :=
  | Refresh (respond : Request -> Response)
  | Click (collection : Collection)
  | Delete (confirmed : bool) (respond : Request -> Response) (collectionName : string).

Definition step (has_callback : bool) (s : State) (e : Event) : Outcome :=
  match e with
  | Refresh respond => fetchCollections respond s
  | Click collection => handleCollectionClick has_callback collection s
  | Delete confirmed respond collectionName =>
      handleDeleteCollection confirmed respond collectionName s
  end.

(** A session: the events in order. The effect of the mount is a first
    [Refresh]. *)
Fixpoint run (has_callback : bool) (events : list Event) (s : State) : Outcome :=
  match events with
  | [] => {| next := s; sent := []; notified := [] |}
  | e :: rest =>
      let o1 := step has_callback s e in
      let o2 := run has_callback rest (next o1) in
      {| next := next o2;
         sent := sent o1 ++ sent o2;
         notified := notified o1 ++ notified o2 |}
  end.

Definition sample_collection : Collection :=
  {| name := "Blog"; description := "Blog posts"; count := 10%Q;
     created_at := Some "2024-05-01T10:00:00Z";
     properties :=
       Some [{| property_name := "title"; dataType := "text" |};
             {| property_name := "content"; dataType := "text" |};
             {| property_name := "url"; dataType := "text" |};
             {| property_name := "author"; dataType := "text" |};
             {| property_name := "published"; dataType := "date" |}] |}.

(** A server that holds the sample collection and refuses deletions. *)
Definition read_only_server (r : Request) : Response :=
  match method r with
  | GET => Answered (Some [sample_collection])
  | DELETE => HttpError 403
  end.

(** A server on which the deletion succeeds and nothing is left. *)
Definition emptied_server (r : Request) : Response :=
  match method r with
  | GET => Answered (Some [])
  | DELETE => Answered None
  end.

End CollectionsList.

(** ** app/page.tsx *)

Module Home.

Record State := {
  activeTab : string;
  jobs : list JobStatus.Job;
  collections : list ChatInterface.Collection;
}.

Definition initial : State :=
  {| activeTab := "scrape"; jobs := []; collections := [] |}.

(** The navigation tabs: id, label and icon. *)
Definition tabs : list (string * string * string) :=
  [("scrape", "Scrape & Embed", "🕷️");
   ("chat-data", "Chat with Data", "💬");
   ("chat-config", "Configure DB", "⚙️");
   ("collections", "Collections", "📚")].

(** Outcome of the request for [/collections]: a body, of whatever
    status, with the given [collections] member ([None] when it is
    missing or null), or a rejected promise. *)
Inductive Response :=
  | Body (collections : option (list ChatInterface.Collection))
  | Threw.

(** [fetchCollections], run to completion: no check of the status, and
    a failure is only logged. *)
Definition fetchCollections (respond : Response) (s : State) : State :=
  match respond with
  | Body found =>
      {| activeTab := activeTab s; jobs := jobs s;
         collections := default [] found |}
  | Threw => s
  end.

(** What the primary column mounts. *)
Inductive Panel :=
  | ScrapePanel
  | ChatPanel (type : ChatInterface.ChatType)
              (collections : list ChatInterface.Collection)
  | CollectionsPanel.

(** The four guarded blocks of the primary column, in order. *)
Definition primary_content (s : State) : list Panel :=
  ((if activeTab s =? "scrape" then [ScrapePanel] else [])
   ++ (if activeTab s =? "chat-data"
       then [ChatPanel ChatInterface.data (collections s)] else [])
   ++ (if activeTab s =? "chat-config"
       then [ChatPanel ChatInterface.config (collections s)] else [])
   ++ (if activeTab s =? "collections" then [CollectionsPanel] else []))%list.

(** The "Recent Jobs" box of the sidebar: [<JobStatus jobs={jobs} />]. *)
Definition recent_jobs (s : State) : JobStatus.View :=
  JobStatus.render (jobs s).

(** "Total Documents": [collections.reduce((sum, col) => sum + (col.count || 0), 0)];
    on a rational, [count || 0] is [count]. *)
Definition total_documents (s : State) : Q :=
  foldl (fun sum col => (sum + ChatInterface.count col)%Q) 0%Q (collections s).

Inductive Event :=
  | ClickTab (index : nat)
  | JobCreated (jobId : string) (respond : Response)
  | Refreshed (respond : Response).

(** [handleJobCreated] ignores the id and, after its delay, fetches the
    collections again; [Refreshed] is the fetch of the mount or one
    through the [onRefresh] prop handed to the collections panel. *)
Definition step (s : State) (e : Event) : State :=
  match e with
  | ClickTab index =>
      match tabs !! index with
      | Some (tab, _, _) =>
          {| activeTab := tab; jobs := jobs s; collections := collections s |}
      | None => s
      end
  | JobCreated _ respond => fetchCollections respond s
  | Refreshed respond => fetchCollections respond s
  end.

Definition run (events : list Event) (s : State) : State :=
  foldl step s events.

End Home.

(** ** deploy-northflank.sh *)

Module Deploy.

Definition required_vars : list string :=
  ["FIRECRAWL_API_KEY"; "APIFY_API_KEY"; "UNSTRUCTURED_API_KEY";
   "COHERE_API_KEY"; "ANTHROPIC_API_KEY"].

(** ["$VAR"]: the value of a variable, empty when it is unset. *)
Definition expand (env : gmap string string) (var : string) : string :=
  default "" (env !! var).

(** [[ -z "${!var}" ]]. *)
Definition is_empty (env : gmap string string) (var : string) : bool :=
  expand env var =? "".

(** The loop that fills [missing_vars]. *)
Definition missing_vars (env : gmap string string) : list string :=
  filter (fun var => is_empty env var = true) required_vars.

(** The commands the script runs that change something. *)
Inductive Command :=
  | InstallCli
  | Login
  | CreateProject (name : string)
  | CreateSecretGroup (name : string)
  | CreateSecret (name value : string)
  | CreateAddon (type name : string)
  | Sleep (seconds : nat)
  | CreateService (type name : string).

(** What the script finds on the machine it runs on: whether the CLI
    answers, whether a user is logged in, and the two strings [openssl]
    draws. *)
Record Host := {
  cli_found : bool;
  logged_in : bool;
  SECRET_KEY : string;
  JWT_SECRET : string;
}.

Definition secret (env : gmap string string) (var : string) : Command :=
  CreateSecret var (expand env var).

(** The script, as its exit status and the commands it ran, in order. *)
Definition deploy (host : Host) (env : gmap string string) : nat * list Command :=
  let probes :=
    ((if cli_found host then [] else [InstallCli])
     ++ (if logged_in host then [] else [Login]))%list in
  if negb (length (missing_vars env) =? 0)%nat then (1%nat, probes)
  else
    (0%nat,
     (probes
      ++ [CreateProject "ulti-weavi-guy";
          CreateSecretGroup "ulti-weavi-secrets";
          secret env "FIRECRAWL_API_KEY";
          secret env "APIFY_API_KEY";
          secret env "UNSTRUCTURED_API_KEY";
          secret env "COHERE_API_KEY";
          secret env "ANTHROPIC_API_KEY"]
      ++ (if negb (is_empty env "WEAVIATE_API_KEY")
          then [secret env "WEAVIATE_API_KEY"] else [])
      ++ [CreateSecret "SECRET_KEY" (SECRET_KEY host);
          CreateSecret "JWT_SECRET" (JWT_SECRET host);
          CreateSecret "DEBUG" "false";
          CreateSecret "LOG_LEVEL" "INFO";
          CreateAddon "redis" "ulti-weavi-redis";
          CreateAddon "postgresql" "ulti-weavi-postgres";
          Sleep 30;
          CreateService "deployment" "ulti-weavi-weaviate";
          CreateService "combined" "ulti-weavi-backend";
          CreateService "combined" "ulti-weavi-frontend"])%list).

(** Whether a command creates something on the platform. *)
Definition changes_platform (c : Command) : bool :=
  match c with
  | InstallCli | Login | Sleep _ => false
  | _ => true
  end.

Definition sample_env : gmap string string :=
  list_to_map [("FIRECRAWL_API_KEY", "fc-1"); ("APIFY_API_KEY", "ap-1");
               ("UNSTRUCTURED_API_KEY", "un-1"); ("COHERE_API_KEY", "co-1");
               ("ANTHROPIC_API_KEY", "an-1")].

Definition sample_host : Host :=
  {| cli_found := true; logged_in := true;
     SECRET_KEY := "00ff"; JWT_SECRET := "11ee" |}.

End Deploy.

Module CollectionsListMore.
Import CollectionsList.

(** The collections clicked in a session, in order. *)
Definition clicked (events : list Event) : list Collection :=
  omap (fun e => match e with Click c => Some c | _ => None end) events.

(** The names whose deletion was confirmed in a session, in order. *)
Definition confirmed_deletions (events : list Event) : list string :=
  omap (fun e => match e with
                 | Delete true _ collectionName => Some collectionName
                 | _ => None
                 end) events.

Definition is_grid (v : View) : bool :=
  match v with
  | GridView _ _ => true
  | _ => false
  end.

End CollectionsListMore.

Module HomeMore.
Import Home.

(** The [collections] members of the bodies received in a session, in
    order; a rejected request contributes nothing. *)
Definition bodies (events : list Event)
  : list (option (list ChatInterface.Collection)) :=
  omap (fun e => match e with
                 | JobCreated _ (Body found) => Some found
                 | Refreshed (Body found) => Some found
                 | _ => None
                 end) events.

Definition tab_ids : list string := (fun t => fst (fst t)) <$> tabs.

End HomeMore.

(** ** ChatInterface.tsx, with [handleSubmit] split at its [await] *)

Module ChatInterfaceAsync.
Import ChatInterface.

(** The content of the assistant's message for an outcome of the request. *)
Definition reply_text (r : Response) : string :=
  match r with
  | Answered response => response
  | HttpError status => "Error: " ++ ("HTTP error! status: " ++ pretty status)
  | Threw (Some message) => "Error: " ++ message
  | Threw None => "Error: " ++ "Failed to get response"
  end.

(** [handleSubmit] up to its [await fetch]: the user message is appended,
    the input cleared, the loading flag raised and the request sent. *)
Definition submit_start (type : ChatType) (now : nat) (s : State)
  : State * list Request :=
  if negb (JS.truthy (JS.trim (input s))) then (s, [])
  else
    let userMessage :=
      {| id := now; type := user; content := JS.trim (input s); timestamp := now |} in
    ({| messages := messages s ++ [userMessage];
        input := "";
        selectedCollection := selectedCollection s;
        isLoading := true |},
     [chat_request type (selectedCollection s) (content userMessage)]).

(** The rest of [handleSubmit], once the request has settled, at clock
    value [now]: the assistant's message is appended to whatever the
    transcript is by then ([setMessages(prev => [...prev, ...])]) and the
    loading flag lowered. *)
Definition submit_settle (now : nat) (r : Response) (s : State) : State :=
  {| messages := messages s
                 ++ [{| id := now + 1; type := assistant;
                        content := reply_text r; timestamp := now |}];
     input := input s;
     selectedCollection := selectedCollection s;
     isLoading := false |}.

Inductive Event :=
  | Typed (value : string)
  | Picked (collections : list Collection) (index : nat)
  | Submitted (now : nat)
  | Settled (now : nat) (r : Response)
  | Cleared.

Definition step (type : ChatType) (s : State) (e : Event)
  : State * list Request :=
  match e with
  | Typed value => ChatInterface.step type s (ChangeInput value)
  | Picked collections index =>
      ChatInterface.step type s (ChangeCollection collections index)
  | Submitted now => submit_start type now s
  | Settled now r => (submit_settle now r s, [])
  | Cleared => ChatInterface.step type s ClearChat
  end.

Fixpoint run (type : ChatType) (events : list Event) (s : State)
  : State * list Request :=
  match events with
  | [] => (s, [])
  | e :: rest =>
      let '(s1, reqs) := step type s e in
      let '(s2, more) := run type rest s1 in
      (s2, (reqs ++ more)%list)
  end.

(** What the rendered form lets happen in a state: the input is
    [disabled={isLoading}] and so is the Send button, so nothing is typed
    or submitted while a request is pending; a request settles only
    while it is pending; the Clear button is there whenever the
    transcript is not empty, pending request or not. *)
Definition enabled (s : State) (e : Event) : bool :=
  match e with
  | Typed _ => negb (isLoading s)
  | Picked _ _ => true
  | Submitted _ => negb (isLoading s)
  | Settled _ _ => isLoading s
  | Cleared => ChatInterfaceView.clear_shown s
  end.

(** A session the rendered form allows from a state. *)
Fixpoint allowed (type : ChatType) (events : list Event) (s : State) : bool :=
  match events with
  | [] => true
  | e :: rest => enabled s e && allowed type rest (step type s e).1
  end.

Definition same_sender (a b : Sender) : bool :=
  match a, b with
  | user, user | assistant, assistant => true
  | _, _ => false
  end.

(** No two neighbours of a transcript have the same sender. *)
Fixpoint alternating (ms : list Message) : bool :=
  match ms with
  | m :: rest =>
      match rest with
      | m' :: _ => negb (same_sender (type m) (type m')) && alternating rest
      | [] => true
      end
  | [] => true
  end.

(** The sender of the last message of a transcript. *)
Definition last_sender (ms : list Message) : option Sender :=
  type <$> last ms.

Definition is_settled (e : Event) : bool :=
  match e with
  | Settled _ _ => true
  | _ => false
  end.

(** The number of requests that settle in a session. *)
Definition settlements (events : list Event) : nat :=
  length (filter (fun e => is_settled e = true) events).

(** The number of requests in flight: one while loading. *)
Definition in_flight (s : State) : nat :=
  if isLoading s then 1 else 0.

(** The shape every allowed session keeps. *)
Definition well_shaped (s : State) : Prop :=
  alternating (messages s) = true
  ∧ (last_sender (messages s) = None
     ∨ last_sender (messages s) = Some (if isLoading s then user else assistant)).

End ChatInterfaceAsync.

(** ** ScrapeForm.tsx, with [handleSubmit] split at its [await] *)

Module ScrapeFormAsync.
Import ScrapeForm.

(** [handleSubmit] up to its [await fetch]. *)
Definition submit_start (s : State) : State * list Request :=
  if negb (JS.truthy (JS.trim (prompt s))) then (s, [])
  else
    ({| prompt := prompt s; sourceType := sourceType s;
        isLoading := true; error := "" |},
     [scrape_request (prompt s) (sourceType s)]).

(** The rest of [handleSubmit], once the request has settled: the state
    and the job ids passed to [onJobCreated]. *)
Definition submit_settle (r : Response) (s : State) : State * list string :=
  match r with
  | Created job_id =>
      ({| prompt := ""; sourceType := sourceType s;
          isLoading := false; error := error s |}, [job_id])
  | HttpError status =>
      ({| prompt := prompt s; sourceType := sourceType s;
          isLoading := false;
          error := "HTTP error! status: " ++ pretty status |}, [])
  | Threw (Some message) =>
      ({| prompt := prompt s; sourceType := sourceType s;
          isLoading := false; error := message |}, [])
  | Threw None =>
      ({| prompt := prompt s; sourceType := sourceType s;
          isLoading := false; error := "Failed to start scraping job" |}, [])
  end.

(** [onChange] of the prompt, which is not disabled while loading. *)
Definition typed (value : string) (s : State) : State :=
  next (step s (ChangePrompt value)).

End ScrapeFormAsync.

(** ** JobStatus.tsx, with the interval callback split at its [await]s *)

Module JobStatusAsync.
Import JobStatus.

(** An invocation of the interval callback that has not returned yet:
    its local variables [updatedJobs] and [hasUpdates], the id whose
    fetch it awaits, and the ids of the polling set of its closure that
    the [for] loop has still to visit. *)
Record Firing := {
  updatedJobs : list Job;
  hasUpdates : bool;
  awaiting : string;
  remaining : list string;
}.

(** The component between two events: the React state, the callbacks in
    flight in the order they started, and the time, in milliseconds, at
    which the interval of the current render was set. A state setter is
    followed at once by the re-render and its effects, so the interval
    in force is always the one of the current state. *)
Record World := {
  component : State;
  in_flight : list Firing;
  interval_set_at : nat;
}.

(** The mount, at time 0. *)
Definition start (initialJobs : list Job) : World :=
  {| component := mount initialJobs; in_flight := []; interval_set_at := 0 |}.

(** What happens to the component: the interval fires, or the fetch
    awaited by the [k]-th callback in flight settles. *)
Inductive Event :=
  | Fire (time : nat)
  | Settle (time : nat) (k : nat) (r : FetchResult).

Definition time_of (e : Event) : nat :=
  match e with
  | Fire time => time
  | Settle time _ _ => time
  end.

(** The interval fires. The callback returns at once on an empty polling
    set; otherwise it copies [jobs] into [updatedJobs] and sends the
    fetch for the first id of the set. The second component is the ids
    fetched. *)
Definition fire (w : World) : World * list string :=
  match pollingJobs (component w) with
  | [] => (w, [])
  | jobId :: rest =>
      ({| component := component w;
          in_flight := in_flight w
                       ++ [{| updatedJobs := jobs (component w);
                              hasUpdates := false;
                              awaiting := jobId;
                              remaining := rest |}];
          interval_set_at := interval_set_at w |},
       [jobId])
  end.

(** The fetch awaited by the [k]-th callback in flight settles at [time]
    with [r]. The body of the loop runs for that id: a 2xx answer whose
    id is found in [updatedJobs] replaces the entry, and a terminal one
    queues the updater that deletes the id from the current polling set.
    Then the callback sends the fetch for the next id of its closure or,
    after the last one, calls [setJobs(updatedJobs)] when it updated
    something and returns. Each state setter re-renders the component:
    the interval is set anew, and after [setJobs] the effect with
    dependency [jobs] rebuilds the polling set. *)
Definition settle (time k : nat) (r : FetchResult) (w : World)
  : World * list string :=
  match in_flight w !! k with
  | None => (w, [])
  | Some f =>
      let found :=
        match r with
        | Ok jobData =>
            match findIndex (awaiting f) (updatedJobs f) with
            | Some jobIndex => Some (jobIndex, jobData)
            | None => None
            end
        | NotOk => None
        | Threw => None
        end in
      let updated :=
        match found with
        | Some (jobIndex, jobData) => <[jobIndex := jobData]> (updatedJobs f)
        | None => updatedJobs f
        end in
      let has := JS.is_set found || hasUpdates f in
      let stop :=
        match found with
        | Some (_, jobData) => is_terminal (status jobData)
        | None => false
        end in
      let polling :=
        if stop then JS.Set_delete (awaiting f) (pollingJobs (component w))
        else pollingJobs (component w) in
      match remaining f with
      | next :: rest =>
          ({| component := {| jobs := jobs (component w); pollingJobs := polling |};
              in_flight := <[k := {| updatedJobs := updated;
                                     hasUpdates := has;
                                     awaiting := next;
                                     remaining := rest |}]> (in_flight w);
              interval_set_at := if stop then time else interval_set_at w |},
           [next])
      | [] =>
          ({| component :=
                if has
                then track_active {| jobs := updated; pollingJobs := polling |}
                else {| jobs := jobs (component w); pollingJobs := polling |};
              in_flight := delete k (in_flight w);
              interval_set_at :=
                if has || stop then time else interval_set_at w |},
           [])
      end
  end.

Definition step (w : World) (e : Event) : World * list string :=
  match e with
  | Fire _ => fire w
  | Settle time k r => settle time k r w
  end.

(** A schedule: the events in order; the second component collects the
    ids fetched at each event. *)
Fixpoint run (events : list Event) (w : World) : World * list (list string) :=
  match events with
  | [] => (w, [])
  | e :: rest =>
      let '(w1, reqs) := step w e in
      let '(w2, log) := run rest w1 in
      (w2, reqs :: log)
  end.

(** Whether the interval in force fires at [time]: a whole number of
    periods after it was set. *)
Definition due (time : nat) (w : World) : bool :=
  (interval_set_at w <? time)%nat
  && ((time - interval_set_at w) mod POLL_INTERVAL_MS =? 0)%nat.

(** Whether an event can happen in a state: the interval fires when it
    is due, and a fetch settles for a callback that is in flight. *)
Definition possible (w : World) (e : Event) : bool :=
  match e with
  | Fire time => due time w
  | Settle _ k _ => JS.is_set (in_flight w !! k)
  end.

(** Whether a schedule can happen from time [now] on: time does not go
    back and every event is possible when it happens. *)
Fixpoint timely (now : nat) (events : list Event) (w : World) : bool :=
  match events with
  | [] => true
  | e :: rest =>
      (now <=? time_of e)%nat && possible w e
      && timely (time_of e) rest (step w e).1
  end.

(** The schedule of a firing during which nothing else happens: the
    interval fires and the fetches of the callback settle one after the
    other, with the answers of [fetch]. *)
Definition uninterrupted (time : nat) (fetch : string -> FetchResult) (s : State)
  : list Event :=
  Fire time :: ((fun jobId => Settle time 0 (fetch jobId)) <$> pollingJobs s).

(** Job 2 of the samples, once it runs. *)
Definition sample_started : Job :=
  {| id := "job-2"; type := "scrape"; status := "running";
     prompt := Some "Process PDF files in my /documents folder";
     progress := (1 # 4)%Q; created_at := "2024-05-01T10:01:00Z";
     error := None; result := None |}.

#[local] Set Warnings "-abstract-large-number".

(** A schedule on a slow network. The first callback learns at 2.1 s
    that job 1 has completed and then waits 2.2 s for the answer about
    job 2; meanwhile, at 4.1 s, the interval fires again. *)
Definition slow_network : list Event :=
  [Fire 2000;
   Settle 2100 0 (Ok sample_completed);
   Fire 4100;
   Settle 4300 0 (Ok sample_started);
   Settle 4400 0 (Ok sample_started);
   Fire 6400].

End JobStatusAsync.

(** ** The status query, from the engine to the polling client *)

Module StatusQuery.







End StatusQuery.

(* ===================================================================== *)
(** * Part II. Theorems                                                   *)
(* ===================================================================== *)

Module JSFacts.
Import JS.

Lemma elem_of_Set_add (x y : string) (s : list string) :
  x ∈ Set_add y s ↔ x ∈ s ∨ x = y.
Proof.
  unfold Set_add. case_bool_decide as Hy.
  - split; [by left|]. intros [?| ->]; done.
  - rewrite elem_of_app, list_elem_of_singleton. done.
Qed.

Lemma elem_of_Set_fold (x : string) (l acc : list string) :
  x ∈ foldl (fun s y => Set_add y s) acc l ↔ x ∈ acc ∨ x ∈ l.
Proof.
  revert acc. induction l as [|y l IH]; intros acc; simpl.
  - rewrite elem_of_nil. tauto.
  - rewrite IH, elem_of_Set_add, elem_of_cons. tauto.
Qed.

Lemma elem_of_Set_new (x : string) (l : list string) :
  x ∈ Set_new l ↔ x ∈ l.
Proof.
  unfold Set_new. rewrite elem_of_Set_fold, elem_of_nil. tauto.
Qed.

Lemma trim_empty : trim "" = "".
Proof. reflexivity. Qed.

Lemma truthy_spec (s : string) : truthy s = true ↔ s ≠ "".
Proof.
  unfold truthy. destruct (String.eqb_spec s ""); simpl; split; congruence.
Qed.

End JSFacts.

Module JobStatusFacts.
Import JS JSFacts JobStatus.

(** ** Rendering *)

(** C9. Whatever the list of jobs, the cards rendered are those of its
    first five jobs, in order, so there are never more than five; the
    "View all" control is present exactly when the list has more than
    five jobs, and then it shows the length of the whole list. *)
Theorem render_first_five_then_view_all (jobs : list Job) :
  cards_of (render jobs) = render_job <$> take 5 jobs
  ∧ (length (cards_of (render jobs)) ≤ 5)%nat
  ∧ length (cards_of (render jobs)) = (length jobs `min` 5)%nat
  ∧ view_all_of (render jobs)
    = if bool_decide (5 < length jobs)%nat then Some (length jobs) else None.
Proof.
  assert (Hcards : cards_of (render jobs) = render_job <$> take 5 jobs).
  { unfold render. destruct jobs as [|j jobs]; reflexivity. }
  assert (Hlen : length (cards_of (render jobs)) = (length jobs `min` 5)%nat).
  { rewrite Hcards, length_fmap, length_take. lia. }
  split_and!; [done | lia | done |].
  unfold render. destruct jobs as [|j jobs]; [reflexivity|].
  cbn [length Nat.eqb view_all_of].
  case_bool_decide as H5.
  - apply Nat.ltb_lt in H5. cbn [length] in H5. by rewrite H5.
  - apply Nat.ltb_nlt in H5. cbn [length] in H5. by rewrite H5.
Qed.

(** ** The shape of a job as the client receives it *)

Lemma get_error (j : Job) :
  JS.get "error" (Job_object j) = JS.JStr <$> error j.
Proof.
  unfold Job_object. destruct (prompt j), (error j), (result j); reflexivity.
Qed.

Lemma status_icon_known (s : string) :
  s ∈ spec_statuses ↔ getStatusIcon s ≠ "❓".
Proof.
  unfold spec_statuses, getStatusIcon.
  destruct (String.eqb_spec s "completed") as [->|H1]; [split; [done|set_solver]|].
  destruct (String.eqb_spec s "failed") as [->|H2]; [split; [done|set_solver]|].
  destruct (String.eqb_spec s "running") as [->|H3]; [split; [done|set_solver]|].
  destruct (String.eqb_spec s "pending") as [->|H4]; [split; [done|set_solver]|].
  split; [|done]. rewrite !elem_of_cons, elem_of_nil.
  intros [?|[?|[?|[?|[]]]]]; congruence.
Qed.


(** C4, as worded, does not hold of the client's [Job]: the error of the
    failed sample job is the bare string, not an object with [kind] and
    [message], and the card shows that string. *)
Lemma failed_job_error_is_not_structured :
  status sample_failed = "failed"
  ∧ JS.get "error" (Job_object sample_failed)
    = Some (JS.JStr "Embedding request timed out")
  ∧ is_structured_error (JS.JStr "Embedding request timed out") = false
  ∧ card_error (render_job sample_failed)
    = Some "❌ Error: Embedding request timed out".
Proof. by vm_compute. Qed.

(** C4, amended. Whenever a job carries an error, the error is a bare
    string, never an object with [kind] and [message] fields; for a
    failed job whose error string is not empty, the card shows that
    string, unchanged, after the prefix "❌ Error: ". *)
Theorem job_error_is_message_string (j : Job) (e : JS.json) :
  JS.get "error" (Job_object j) = Some e →
  ∃ message,
    e = JS.JStr message
    ∧ error j = Some message
    ∧ is_structured_error e = false
    ∧ (status j = "failed" → message ≠ "" →
       card_error (render_job j) = Some ("❌ Error: " ++ message)).
Proof.
  rewrite get_error. destruct (error j) as [message|] eqn:He; [|done].
  intros [= <-]. exists message. split_and!; try done.
  intros Hst Hne. unfold render_job. cbn [card_error].
  rewrite Hst, He. simpl. apply truthy_spec in Hne. by rewrite Hne.
Qed.

Lemma job_error_is_message_string_witness :
  JS.get "error" (Job_object sample_failed)
  = Some (JS.JStr "Embedding request timed out")
  ∧ ∃ message,
      JS.JStr "Embedding request timed out" = JS.JStr message
      ∧ error sample_failed = Some message
      ∧ is_structured_error (JS.JStr "Embedding request timed out") = false
      ∧ (status sample_failed = "failed" → message ≠ "" →
         card_error (render_job sample_failed) = Some ("❌ Error: " ++ message)).
Proof.
  split; [reflexivity|].
  exact (job_error_is_message_string sample_failed _ eq_refl).
Defined.

(** ** Polling *)

Lemma is_terminal_not_active (s : string) :
  is_terminal s = true → is_active s = false.
Proof.
  unfold is_terminal, is_active.
  destruct (String.eqb_spec s "completed") as [->|_]; [reflexivity|].
  destruct (String.eqb_spec s "failed") as [->|_]; [reflexivity|].
  discriminate.
Qed.

Lemma lookup_unique_id (l : list Job) (i k : nat) (x y : Job) :
  NoDup (id <$> l) → l !! i = Some x → l !! k = Some y → id x = id y → i = k.
Proof.
  intros Hnd Hi Hk Hxy.
  eapply NoDup_lookup; [exact Hnd | |].
  - rewrite list_lookup_fmap, Hi. reflexivity.
  - rewrite list_lookup_fmap, Hk. simpl. by rewrite Hxy.
Qed.

Lemma elem_unique_id (l : list Job) (x y : Job) :
  NoDup (id <$> l) → x ∈ l → y ∈ l → id x = id y → x = y.
Proof.
  intros Hnd [i Hi]%list_elem_of_lookup [k Hk]%list_elem_of_lookup Hxy.
  assert (i = k) as -> by eauto using lookup_unique_id.
  congruence.
Qed.

Lemma findIndex_Some (jobId : string) (l : list Job) (i : nat) :
  findIndex jobId l = Some i → ∃ y, l !! i = Some y ∧ id y = jobId.
Proof.
  unfold findIndex. intros H.
  destruct (list_find _ l) as [[k y]|] eqn:Hf; simplify_eq/=.
  apply list_find_Some in Hf as (? & ? & _). eauto.
Qed.

Lemma findIndex_None (jobId : string) (l : list Job) :
  findIndex jobId l = None → Forall (fun j => id j ≠ jobId) l.
Proof.
  unfold findIndex. intros H.
  destruct (list_find _ l) as [[k y]|] eqn:Hf; simplify_eq/=.
  by apply list_find_None in Hf.
Qed.

Lemma findIndex_elem (jobId : string) (l : list Job) :
  jobId ∈ id <$> l → is_Some (findIndex jobId l).
Proof.
  intros (j & -> & Hj)%list_elem_of_fmap.
  destruct (findIndex (id j) l) eqn:Hf; [eauto|].
  apply findIndex_None in Hf. rewrite Forall_forall in Hf.
  by destruct (Hf j Hj).
Qed.

(** The entry written by one iteration, seen as a map over the list. *)
Lemma poll_one_updatedJobs fetch (st : Loop) (jobId : string) :
  NoDup (id <$> updatedJobs st) →
  updatedJobs (poll_one fetch st jobId)
  = refresh fetch [jobId] <$> updatedJobs st.
Proof.
  intros Hnd. unfold poll_one. cbn [updatedJobs].
  assert (Hkeep : (∀ j, j ∈ updatedJobs st → refresh fetch [jobId] j = j) →
                  updatedJobs st = refresh fetch [jobId] <$> updatedJobs st).
  { intros Hk. symmetry. rewrite <- (list_fmap_id (updatedJobs st)) at 2.
    apply list_fmap_ext. intros i x Hx. apply Hk.
    eapply list_elem_of_lookup_2; eauto. }
  destruct (fetch jobId) as [jobData| |] eqn:Hfetch.
  - destruct (findIndex jobId (updatedJobs st)) as [jobIndex|] eqn:Hidx.
    + cbn [updatedJobs].
      apply findIndex_Some in Hidx as (y & Hy & Hid).
      apply list_eq. intros k. rewrite list_lookup_fmap.
      destruct (decide (k = jobIndex)) as [->|Hne].
      * rewrite list_lookup_insert_eq by eauto using lookup_lt_Some.
        rewrite Hy. simpl. unfold refresh.
        rewrite bool_decide_eq_true_2 by (rewrite Hid; set_solver).
        by rewrite Hid, Hfetch.
      * rewrite list_lookup_insert_ne by done.
        destruct (updatedJobs st !! k) as [z|] eqn:Hz; [|done].
        simpl. unfold refresh.
        rewrite bool_decide_eq_false_2; [done|].
        rewrite list_elem_of_singleton. intros Hzid.
        apply Hne. eapply lookup_unique_id; eauto. congruence.
    + cbn [updatedJobs]. apply Hkeep. intros j Hj.
      apply findIndex_None in Hidx. rewrite Forall_forall in Hidx.
      unfold refresh. rewrite bool_decide_eq_false_2; [done|].
      rewrite list_elem_of_singleton. by apply Hidx.
  - cbn [updatedJobs]. apply Hkeep. intros j _. unfold refresh.
    case_bool_decide as Hj; [|done].
    apply list_elem_of_singleton in Hj. by rewrite Hj, Hfetch.
  - cbn [updatedJobs]. apply Hkeep. intros j _. unfold refresh.
    case_bool_decide as Hj; [|done].
    apply list_elem_of_singleton in Hj. by rewrite Hj, Hfetch.
Qed.

Lemma refresh_id fetch (polled : list string) (j : Job) :
  answers_for_requested_id fetch → id (refresh fetch polled j) = id j.
Proof.
  intros Hwb. unfold refresh. case_bool_decide; [|done].
  destruct (fetch (id j)) eqn:Hf; [|done..]. by apply Hwb.
Qed.

Lemma refresh_ids fetch (polled : list string) (l : list Job) :
  answers_for_requested_id fetch →
  id <$> (refresh fetch polled <$> l) = id <$> l.
Proof.
  intros Hwb. rewrite <- list_fmap_compose.
  apply list_fmap_ext. intros ???. simpl. by apply refresh_id.
Qed.

Lemma refresh_cons fetch (x : string) (polled : list string) (j : Job) :
  answers_for_requested_id fetch →
  refresh fetch polled (refresh fetch [x] j) = refresh fetch (x :: polled) j.
Proof.
  intros Hwb. unfold refresh at 2 3.
  destruct (decide (id j = x)) as [Hx|Hx].
  - rewrite !bool_decide_eq_true_2 by set_solver.
    destruct (fetch (id j)) as [d| |] eqn:Hf.
    + unfold refresh. case_bool_decide; [|done].
      rewrite (Hwb _ _ Hf), Hf. done.
    + unfold refresh. case_bool_decide; [|done]. by rewrite Hf.
    + unfold refresh. case_bool_decide; [|done]. by rewrite Hf.
  - rewrite bool_decide_eq_false_2 by (by intros ?%list_elem_of_singleton).
    unfold refresh.
    rewrite (bool_decide_ext (id j ∈ x :: polled) (id j ∈ polled)); [done|].
    rewrite elem_of_cons. split; [intros [?|?]; [congruence|done] | by right].
Qed.

Lemma refresh_nil fetch (l : list Job) : refresh fetch [] <$> l = l.
Proof.
  rewrite <- (list_fmap_id l) at 2. apply list_fmap_ext. intros ???.
  unfold refresh. rewrite bool_decide_eq_false_2; [done|]. set_solver.
Qed.

(** The whole loop, seen as a map over the list it started from. *)
Lemma poll_loop_updatedJobs fetch (polled : list string) (st : Loop) :
  answers_for_requested_id fetch →
  NoDup (id <$> updatedJobs st) →
  updatedJobs (foldl (poll_one fetch) st polled)
  = refresh fetch polled <$> updatedJobs st.
Proof.
  intros Hwb. revert st.
  induction polled as [|x polled IH]; intros st Hnd; simpl.
  - by rewrite refresh_nil.
  - rewrite IH.
    + rewrite poll_one_updatedJobs by done.
      rewrite <- list_fmap_compose. apply list_fmap_ext.
      intros ???. simpl. by apply refresh_cons.
    + rewrite poll_one_updatedJobs by done. by rewrite refresh_ids.
Qed.

Lemma poll_one_requested fetch (st : Loop) (jobId : string) :
  requested (poll_one fetch st jobId) = (requested st ++ [jobId])%list.
Proof.
  unfold poll_one. destruct (fetch jobId); [|done..].
  by destruct (findIndex _ _).
Qed.

(** Every id of the polling set is fetched, once, in the order of the set. *)
Lemma poll_loop_requested fetch (polled : list string) (st : Loop) :
  requested (foldl (poll_one fetch) st polled) = (requested st ++ polled)%list.
Proof.
  revert st. induction polled as [|x polled IH]; intros st; simpl.
  - by rewrite app_nil_r.
  - by rewrite IH, poll_one_requested, <- app_assoc.
Qed.

Lemma poll_one_hasUpdates_mono fetch (st : Loop) (jobId : string) :
  hasUpdates st = true → hasUpdates (poll_one fetch st jobId) = true.
Proof.
  intros H. unfold poll_one. destruct (fetch jobId); [|done..].
  by destruct (findIndex _ _).
Qed.

Lemma poll_loop_hasUpdates_mono fetch (polled : list string) (st : Loop) :
  hasUpdates st = true → hasUpdates (foldl (poll_one fetch) st polled) = true.
Proof.
  revert st. induction polled as [|x polled IH]; intros st H; simpl; [done|].
  by apply IH, poll_one_hasUpdates_mono.
Qed.

(** Without an update the queued updaters left the polling set alone. *)
Lemma poll_loop_no_updates fetch (polled : list string) (st : Loop) :
  hasUpdates (foldl (poll_one fetch) st polled) = false →
  nextPolling (foldl (poll_one fetch) st polled) = nextPolling st.
Proof.
  revert st. induction polled as [|x polled IH]; intros st H; simpl in *; [done|].
  rewrite IH by done.
  destruct (hasUpdates (poll_one fetch st x)) eqn:Hup.
  { by rewrite poll_loop_hasUpdates_mono in H. }
  revert Hup. unfold poll_one. destruct (fetch x); [|done..].
  by destruct (findIndex _ _).
Qed.

(** A 2xx answer for an id that is in the list is an update. *)
Lemma poll_loop_hasUpdates fetch (polled : list string) (st : Loop)
  (jobId : string) (jobData : Job) :
  answers_for_requested_id fetch →
  NoDup (id <$> updatedJobs st) →
  jobId ∈ polled → jobId ∈ id <$> updatedJobs st →
  fetch jobId = Ok jobData →
  hasUpdates (foldl (poll_one fetch) st polled) = true.
Proof.
  intros Hwb. revert st.
  induction polled as [|x polled IH]; intros st Hnd Hin Hid Hf; simpl.
  { by apply elem_of_nil in Hin. }
  apply elem_of_cons in Hin as [<-|Hin].
  - apply poll_loop_hasUpdates_mono. unfold poll_one. rewrite Hf.
    cbn [updatedJobs]. by destruct (findIndex_elem _ _ Hid) as [i ->].
  - apply IH; try done.
    + rewrite poll_one_updatedJobs by done. by rewrite refresh_ids.
    + rewrite poll_one_updatedJobs by done. by rewrite refresh_ids.
Qed.

Lemma poll_loop_no_updates_jobs fetch (polled : list string) (st : Loop) :
  hasUpdates (foldl (poll_one fetch) st polled) = false →
  updatedJobs (foldl (poll_one fetch) st polled) = updatedJobs st.
Proof.
  revert st. induction polled as [|x polled IH]; intros st H; simpl in *; [done|].
  rewrite IH by done.
  destruct (hasUpdates (poll_one fetch st x)) eqn:Hup.
  { by rewrite poll_loop_hasUpdates_mono in H. }
  revert Hup. unfold poll_one. destruct (fetch x); [|done..].
  by destruct (findIndex _ _).
Qed.

Lemma mount_consistent (initialJobs : list Job) :
  NoDup (id <$> initialJobs) → consistent (mount initialJobs).
Proof. intros Hnd. by split. Qed.

Lemma tick_requests fetch (s : State) : (tick fetch s).2 = pollingJobs s.
Proof.
  unfold tick. destruct (pollingJobs s) as [|x polled] eqn:Hp; [done|].
  cbn [length Nat.eqb].
  match goal with |- context [foldl ?f ?st ?l] =>
    pose proof (poll_loop_requested fetch l st) as Hreq;
    destruct (hasUpdates (foldl f st l)) end; exact Hreq.
Qed.

Lemma tick_jobs fetch (s : State) :
  answers_for_requested_id fetch → consistent s →
  jobs (tick fetch s).1 = refresh fetch (pollingJobs s) <$> jobs s.
Proof.
  intros Hwb [Hnd _]. unfold tick.
  destruct (pollingJobs s) as [|x polled] eqn:Hp.
  { simpl. by rewrite refresh_nil. }
  cbn [length Nat.eqb].
  match goal with |- context [foldl ?f ?st ?l] =>
    pose proof (poll_loop_updatedJobs fetch l st Hwb Hnd) as Hjobs;
    pose proof (poll_loop_no_updates_jobs fetch l st) as Hsame;
    destruct (hasUpdates (foldl f st l)) end.
  - exact Hjobs.
  - cbn [fst jobs]. cbn [updatedJobs] in Hjobs, Hsame.
    rewrite <- Hjobs. symmetry. by apply Hsame.
Qed.

Lemma tick_consistent fetch (s : State) :
  answers_for_requested_id fetch → consistent s → consistent (tick fetch s).1.
Proof.
  intros Hwb Hs. pose proof Hs as [Hnd Hpoll]. unfold tick.
  destruct (pollingJobs s) as [|x polled] eqn:Hp; [done|].
  cbn [length Nat.eqb].
  match goal with |- context [foldl ?f ?st ?l] =>
    pose proof (poll_loop_updatedJobs fetch l st Hwb Hnd) as Hjobs;
    pose proof (poll_loop_no_updates fetch l st) as Hsame;
    destruct (hasUpdates (foldl f st l)) end.
  - split; [|done]. cbn [fst track_active jobs].
    rewrite Hjobs. cbn [updatedJobs]. by rewrite refresh_ids.
  - cbn [fst]. rewrite Hsame by done. cbn [nextPolling].
    split; [done|]. exact Hpoll.
Qed.

(** The polling set holds exactly the ids of the active jobs. *)
Lemma elem_of_pollingJobs (s : State) (jobId : string) :
  consistent s →
  jobId ∈ pollingJobs s
  ↔ ∃ job, job ∈ jobs s ∧ id job = jobId ∧ is_active (status job) = true.
Proof.
  intros [_ ->]. rewrite elem_of_Set_new, list_elem_of_fmap.
  split.
  - intros (job & -> & [Hact Hjob]%list_elem_of_filter). eauto.
  - intros (job & Hjob & <- & Hact). exists job. split; [done|].
    by apply list_elem_of_filter.
Qed.

(** A job whose entry shows a terminal status is not in the polling set. *)
Lemma terminal_not_polled (s : State) (job : Job) :
  consistent s → job ∈ jobs s → is_terminal (status job) = true →
  id job ∉ pollingJobs s.
Proof.
  intros Hs Hj Hterm (job' & Hj' & Hid & Hact)%elem_of_pollingJobs; [|done].
  assert (job' = job) as -> by (destruct Hs; eauto using elem_unique_id).
  apply is_terminal_not_active in Hterm. congruence.
Qed.

(** A firing keeps the entry of a terminal job as it is. *)
Lemma tick_keeps_terminal fetch (s : State) (job : Job) :
  answers_for_requested_id fetch → consistent s →
  job ∈ jobs s → is_terminal (status job) = true →
  job ∈ jobs (tick fetch s).1.
Proof.
  intros Hwb Hs Hj Hterm. rewrite tick_jobs by done.
  apply list_elem_of_fmap. exists job. split; [|done].
  unfold refresh. rewrite bool_decide_eq_false_2; [done|].
  by apply terminal_not_polled.
Qed.

(** The firing at which the terminal answer arrives. *)
Lemma tick_terminal_answer fetch (s : State) (jobId : string) (jobData : Job) :
  answers_for_requested_id fetch → consistent s →
  jobId ∈ pollingJobs s → fetch jobId = Ok jobData →
  jobData ∈ jobs (tick fetch s).1.
Proof.
  intros Hwb Hs Hin Hf. rewrite tick_jobs by done.
  pose proof Hin as (job & Hj & Hid & _)%elem_of_pollingJobs; [|done].
  apply list_elem_of_fmap. exists job. split; [|done].
  unfold refresh. rewrite Hid, bool_decide_eq_true_2 by done. by rewrite Hf.
Qed.

(** Once the entry is terminal, no later firing fetches the job. *)
Lemma ticks_never_poll_terminal (fetches : list (string -> FetchResult))
  (s : State) (job : Job) :
  Forall answers_for_requested_id fetches → consistent s →
  job ∈ jobs s → is_terminal (status job) = true →
  Forall (fun reqs => id job ∉ reqs) ((ticks fetches s).2)
  ∧ (id job ∉ pollingJobs (ticks fetches s).1)
  ∧ job ∈ jobs (ticks fetches s).1
  ∧ consistent (ticks fetches s).1.
Proof.
  intros Hwb. revert s.
  induction Hwb as [|fetch rest Hf Hrest IH]; intros s Hs Hj Hterm; simpl.
  { split_and!; [constructor | by apply terminal_not_polled | done | done]. }
  destruct (tick fetch s) as [s1 reqs] eqn:Htick.
  assert (Hs1 : consistent s1).
  { replace s1 with (tick fetch s).1 by (by rewrite Htick). by apply tick_consistent. }
  assert (Hj1 : job ∈ jobs s1).
  { replace s1 with (tick fetch s).1 by (by rewrite Htick).
    by apply tick_keeps_terminal. }
  assert (Hreqs : reqs = pollingJobs s).
  { replace reqs with (tick fetch s).2 by (by rewrite Htick). apply tick_requests. }
  specialize (IH s1 Hs1 Hj1 Hterm).
  destruct (ticks rest s1) as [s2 log]. simpl in *.
  destruct IH as (? & ? & ? & ?). split_and!; try done.
  constructor; [|done]. subst reqs. by apply terminal_not_polled.
Qed.

Lemma ticks_consistent (fetches : list (string -> FetchResult)) (s : State) :
  Forall answers_for_requested_id fetches → consistent s →
  consistent (ticks fetches s).1.
Proof.
  intros Hwb. revert s. induction Hwb as [|fetch rest Hf Hrest IH]; intros s Hs; simpl.
  { done. }
  pose proof (tick_consistent fetch s Hf Hs) as Hs1.
  destruct (tick fetch s) as [s1 reqs]. specialize (IH s1 Hs1).
  by destruct (ticks rest s1).
Qed.

(** X30. When the firings of the polling timer do not overlap, each
    callback returning before the interval fires again, polling stops at
    a terminal status. Take any list of jobs with distinct ids and any
    sequence of such firings in which the server answers each query with
    the record of the job asked for. A firing fetches the status of
    exactly the tracked jobs. If, at some firing, the query for a tracked
    job is answered with a terminal status (completed or failed), then
    after that firing the job is out of the polling set and its entry is
    the terminal answer; and in every later firing the job is not
    fetched, stays out of the polling set, and its entry stays that
    answer. *)
Theorem polling_stops_at_terminal_status
  (initialJobs : list Job) (before after : list (string -> FetchResult))
  (fetch : string -> FetchResult) (jobId : string) (jobData : Job) :
  NoDup (id <$> initialJobs) →
  Forall answers_for_requested_id (before ++ fetch :: after) →
  jobId ∈ pollingJobs (ticks before (mount initialJobs)).1 →
  fetch jobId = Ok jobData →
  is_terminal (status jobData) = true →
  let s := (ticks before (mount initialJobs)).1 in
  let s1 := (tick fetch s).1 in
  (tick fetch s).2 = pollingJobs s
  ∧ jobId ∈ (tick fetch s).2
  ∧ (jobId ∉ pollingJobs s1)
  ∧ jobData ∈ jobs s1
  ∧ Forall (fun reqs => jobId ∉ reqs) ((ticks after s1).2)
  ∧ (jobId ∉ pollingJobs (ticks after s1).1)
  ∧ jobData ∈ jobs (ticks after s1).1.
Proof.
  intros Hnd Hwb Hin Hf Hterm s s1.
  apply Forall_app in Hwb as [Hbefore Hwb].
  apply Forall_cons in Hwb as [Hfetch Hafter].
  assert (Hs : consistent s) by (by apply ticks_consistent, mount_consistent).
  assert (Hs1 : consistent s1) by (by apply tick_consistent).
  assert (Hdata : jobData ∈ jobs s1) by (by eapply tick_terminal_answer).
  assert (Hid : id jobData = jobId) by (by apply Hfetch).
  pose proof (ticks_never_poll_terminal after s1 jobData Hafter Hs1 Hdata Hterm)
    as (Hlog & Hout & Hstay & _).
  rewrite Hid in Hlog, Hout.
  split_and!; try done.
  - apply tick_requests.
  - by rewrite tick_requests.
  - rewrite <- Hid. by apply terminal_not_polled.
Qed.

Lemma sample_server_answers : answers_for_requested_id sample_server.
Proof.
  intros jobId jobData. unfold sample_server.
  destruct (String.eqb_spec jobId "job-1") as [->|_]; [|discriminate].
  by intros [= <-].
Qed.

Lemma server_down_answers : answers_for_requested_id server_down.
Proof. intros jobId jobData. discriminate. Qed.

Lemma polling_stops_at_terminal_status_witness :
  let initialJobs := [sample_running; sample_pending] in
  let s := (ticks [server_down] (mount initialJobs)).1 in
  let s1 := (tick sample_server s).1 in
  let after := [sample_server; server_down; sample_server] in
  (NoDup (id <$> initialJobs)
   ∧ Forall answers_for_requested_id ([server_down] ++ sample_server :: after)
   ∧ "job-1" ∈ pollingJobs s
   ∧ sample_server "job-1" = Ok sample_completed
   ∧ is_terminal (status sample_completed) = true)
  ∧ ((tick sample_server s).2 = pollingJobs s
     ∧ "job-1" ∈ (tick sample_server s).2
     ∧ ("job-1" ∉ pollingJobs s1)
     ∧ sample_completed ∈ jobs s1
     ∧ Forall (fun reqs => "job-1" ∉ reqs) ((ticks after s1).2)
     ∧ ("job-1" ∉ pollingJobs (ticks after s1).1)
     ∧ sample_completed ∈ jobs (ticks after s1).1).
Proof.
  intros initialJobs s s1 after.
  assert (Hnd : NoDup (id <$> initialJobs)) by (apply (bool_decide_unpack _); by vm_compute).
  assert (Hwb : Forall answers_for_requested_id
                  ([server_down] ++ sample_server :: after)).
  { repeat constructor;
      first [apply sample_server_answers | apply server_down_answers]. }
  assert (Hin : "job-1" ∈ pollingJobs (ticks [server_down] (mount initialJobs)).1).
  { apply (bool_decide_unpack _); by vm_compute. }
  split; [split_and!; done|].
  exact (polling_stops_at_terminal_status initialJobs [server_down] after
           sample_server "job-1" sample_completed Hnd Hwb Hin eq_refl eq_refl).
Defined.

End JobStatusFacts.

Module ChatInterfaceFacts.
Import JS JSFacts ChatInterface.

Lemma get_context_collection (type : ChatType) (sel content : string) :
  JS.get "context_collection" (body (chat_request type sel content))
  = Some (match type with data => JStr sel | config => JNull end).
Proof. reflexivity. Qed.

(** A submission sends nothing for a blank input, and otherwise one
    request built from the selection of the moment. *)
Lemma handleSubmit_requests (type : ChatType) (now : nat)
  (respond : Request -> Response) (s : State) :
  (handleSubmit type now respond s).2
  = if truthy (trim (input s))
    then [chat_request type (selectedCollection s) (trim (input s))]
    else [].
Proof. unfold handleSubmit. by destruct (truthy _). Qed.

Lemma handleSubmit_selection (type : ChatType) (now : nat)
  (respond : Request -> Response) (s : State) :
  selectedCollection (handleSubmit type now respond s).1 = selectedCollection s.
Proof. unfold handleSubmit. by destruct (truthy _). Qed.

(** An event changes the selection exactly when it picks a value. *)
Lemma step_selection (type : ChatType) (s : State) (e : Event) :
  selectedCollection (step type s e).1
  = default (selectedCollection s) (picked type e).
Proof.
  destruct e as [value|collections index|now respond|]; simpl; try done.
  - destruct (collection_options collections !! index) as [value|];
      by destruct (selector_shown type collections).
  - apply handleSubmit_selection.
Qed.

Lemma step_requests (type : ChatType) (s : State) (e : Event) (req : Request) :
  req ∈ (step type s e).2 →
  (∃ now respond, e = Submit now respond)
  ∧ req = chat_request type (selectedCollection s) (trim (input s)).
Proof.
  destruct e as [value|collections index|now respond|]; simpl.
  - by intros ?%elem_of_nil.
  - destruct (collection_options collections !! index); [|by intros ?%elem_of_nil].
    destruct (selector_shown type collections); by intros ?%elem_of_nil.
  - rewrite handleSubmit_requests. destruct (truthy _).
    + intros ->%list_elem_of_singleton. eauto.
    + by intros ?%elem_of_nil.
  - by intros ?%elem_of_nil.
Qed.

Lemma chat_run_snoc (type : ChatType) (events : list Event) (e : Event) (s : State) :
  run type (events ++ [e]) s
  = ((step type (run type events s).1 e).1,
     ((run type events s).2 ++ (step type (run type events s).1 e).2)%list).
Proof.
  revert s. induction events as [|e' events IH]; intros s; simpl.
  - destruct (step type s e) as [s1 reqs]. simpl. by rewrite app_nil_r.
  - destruct (step type s e') as [s1 reqs]. rewrite IH.
    destruct (run type events s1) as [s2 more]. simpl.
    by rewrite app_assoc.
Qed.

Lemma selection_after_snoc (type : ChatType) (events : list Event) (e : Event) :
  selection_after type (events ++ [e])
  = default (selection_after type events) (picked type e).
Proof.
  unfold selection_after. rewrite omap_app. simpl.
  destruct (picked type e) as [value|]; simpl.
  - by rewrite last_snoc.
  - by rewrite app_nil_r.
Qed.

(** The selection the component holds is the one in force. *)
Lemma run_selection (type : ChatType) (events : list Event) :
  selectedCollection (run type events initial).1 = selection_after type events.
Proof.
  induction events as [|e events IH] using rev_ind; [done|].
  rewrite chat_run_snoc, selection_after_snoc. simpl.
  by rewrite step_selection, IH.
Qed.

(** C10. At every point of a chat session the requests sent are those of
    the event that happens there, and only a submission sends one. The
    request of a submission carries the chat type of the component and a
    [context_collection] that is [null] when the type is ['config'] and,
    when it is ['data'], the selection in force at that submission: the
    value the user picked last in the selector before it, or the empty
    string of "All collections" when nothing was picked. *)
Theorem context_collection_follows_chat_type
  (type : ChatType) (before : list Event) (e : Event) (req : Request) :
  (run type (before ++ [e]) initial).2
  = ((run type before initial).2
     ++ (step type (run type before initial).1 e).2)%list
  ∧ selectedCollection (run type before initial).1 = selection_after type before
  ∧ (req ∈ (step type (run type before initial).1 e).2 →
     (∃ now respond, e = Submit now respond)
     ∧ JS.get "chat_type" (body req) = Some (JStr (ChatType_string type))
     ∧ JS.get "context_collection" (body req)
       = Some (match type with
               | config => JNull
               | data => JStr (selection_after type before)
               end)).
Proof.
  split_and!.
  - by rewrite chat_run_snoc.
  - apply run_selection.
  - intros [Hsubmit ->]%step_requests. split; [done|].
    rewrite get_context_collection, run_selection. by destruct type.
Qed.

Lemma context_collection_follows_chat_type_witness :
  let before := [ChangeCollection sample_collections 2;
                 ChangeInput "What are the main topics in my data?";
                 Submit 1000 echo;
                 ChangeCollection sample_collections 1;
                 ChangeInput " Summarize the latest articles "] in
  let req := chat_request data "Blog" "Summarize the latest articles" in
  req ∈ (step data (run data before initial).1 (Submit 2000 echo)).2
  ∧ selection_after data before = "Blog"
  ∧ JS.get "context_collection" (body req) = Some (JStr "Blog")
  ∧ (run data (before ++ [Submit 2000 echo]) initial).2
    = [chat_request data "News" "What are the main topics in my data?"; req].
Proof.
  intros before req.
  assert (Hin : req ∈ (step data (run data before initial).1 (Submit 2000 echo)).2).
  { replace (step data (run data before initial).1 (Submit 2000 echo)).2
      with [req] by (by vm_compute).
    by apply list_elem_of_singleton. }
  destruct (context_collection_follows_chat_type data before (Submit 2000 echo) req)
    as (Hlog & _ & Hreq).
  destruct (Hreq Hin) as (_ & _ & Hctx).
  split_and!; [exact Hin | by vm_compute | |].
  - rewrite Hctx. by vm_compute.
  - rewrite Hlog. by vm_compute.
Defined.

End ChatInterfaceFacts.

Module ScrapeFormFacts.
Import JS JSFacts ScrapeForm.

(** A prompt that is empty or blank: the handler returns at once, sends
    nothing, reports no job and leaves the form, its error line
    included, as it was. *)
Lemma handleSubmit_blank (respond : Request -> Response) (s : State) :
  trim (prompt s) = "" →
  handleSubmit respond s = {| next := s; sent := []; created := [] |}.
Proof. intros H. unfold handleSubmit. by rewrite H. Qed.

Lemma handleSubmit_sent (respond : Request -> Response) (s : State) :
  sent (handleSubmit respond s)
  = if truthy (trim (prompt s))
    then [scrape_request (prompt s) (sourceType s)] else [].
Proof.
  unfold handleSubmit. destruct (truthy _); [|done]. simpl.
  by destruct (respond _) as [?|?|[?|]].
Qed.

Lemma handleSubmit_sourceType (respond : Request -> Response) (s : State) :
  sourceType (next (handleSubmit respond s)) = sourceType s.
Proof.
  unfold handleSubmit. destruct (truthy _); [|done]. simpl.
  by destruct (respond _) as [?|?|[?|]].
Qed.

Lemma option_value_known (index : nat) (value label : string) :
  sourceType_options !! index = Some (value, label) →
  value ∈ source_type_values.
Proof.
  unfold sourceType_options, source_type_values.
  do 4 (destruct index as [|index]; [intros [= <- _]; set_solver|]).
  done.
Qed.

Lemma step_sourceType (s : State) (e : Event) :
  sourceType s ∈ source_type_values →
  sourceType (next (step s e)) ∈ source_type_values.
Proof.
  intros Hs. destruct e as [value|index|respond]; simpl; [done| |].
  - destruct (sourceType_options !! index) as [[value label]|] eqn:Hi; [|done].
    simpl. by eapply option_value_known.
  - by rewrite handleSubmit_sourceType.
Qed.

Lemma step_sent (s : State) (e : Event) (req : Request) :
  req ∈ sent (step s e) →
  JS.get "source_type" (body req) = Some (JStr (sourceType s)).
Proof.
  destruct e as [value|index|respond]; simpl.
  - by intros ?%elem_of_nil.
  - destruct (sourceType_options !! index) as [[??]|]; by intros ?%elem_of_nil.
  - rewrite handleSubmit_sent. destruct (truthy _).
    + by intros ->%list_elem_of_singleton.
    + by intros ?%elem_of_nil.
Qed.

Lemma run_sent (events : list Event) (s : State) (req : Request) :
  sourceType s ∈ source_type_values →
  req ∈ sent (run events s) →
  ∃ value, value ∈ source_type_values
           ∧ JS.get "source_type" (body req) = Some (JStr value).
Proof.
  revert s. induction events as [|e rest IH]; intros s Hs; simpl.
  { by intros ?%elem_of_nil. }
  rewrite elem_of_app. intros [Hin|Hin].
  - apply step_sent in Hin. eauto.
  - eapply IH; [|done]. by apply step_sourceType.
Qed.

(** C6, as worded, does not hold of the form: choosing the second option
    and submitting transmits ["firecrawl"], which is not one of the four
    worded hints. *)
Lemma source_type_outside_worded_hints :
  (fun req => JS.get "source_type" (body req))
    <$> sent (run [ChangePrompt "Crawl news articles about AI from techcrunch.com";
                   ChangeSourceType 1; Submit accept] initial)
  = [Some (JStr "firecrawl")]
  ∧ "firecrawl" ∉ spec_source_type_hints.
Proof.
  split; [reflexivity|]. apply (bool_decide_unpack _). by vm_compute.
Qed.

(** C6, amended. Every scrape request a session of the form sends carries
    a [source_type] drawn from auto, firecrawl, apify and local, and each
    of these four values is transmitted by some session. *)
Theorem source_type_drawn_from_options :
  (∀ events req,
     req ∈ sent (run events initial) →
     ∃ value, value ∈ source_type_values
              ∧ JS.get "source_type" (body req) = Some (JStr value))
  ∧ (∀ value,
       value ∈ source_type_values →
       ∃ events req,
         req ∈ sent (run events initial)
         ∧ JS.get "source_type" (body req) = Some (JStr value)).
Proof.
  split.
  - intros events req. apply run_sent. unfold source_type_values. set_solver.
  - intros value Hv. unfold source_type_values in Hv.
    assert (∃ index, index < 4 ∧ fst <$> sourceType_options !! index = Some value)%nat
      as (index & Hlt & Hi).
    { rewrite !elem_of_cons, elem_of_nil in Hv.
      destruct Hv as [->|[->|[->|[->|[]]]]];
        [exists 0%nat | exists 1%nat | exists 2%nat | exists 3%nat]; by split; [lia|]. }
    exists [ChangePrompt "x"; ChangeSourceType index; Submit accept].
    exists (scrape_request "x" value).
    do 4 (destruct index as [|index]; [simplify_eq/=; split; [apply list_elem_of_here|done]|]).
    lia.
Qed.

Lemma source_type_drawn_from_options_witness :
  let events := [ChangePrompt "Process PDF files in my /documents folder";
                 ChangeSourceType 3; Submit accept] in
  let req := scrape_request "Process PDF files in my /documents folder" "local" in
  req ∈ sent (run events initial)
  ∧ ∃ value, value ∈ source_type_values
             ∧ JS.get "source_type" (body req) = Some (JStr value).
Proof.
  intros events req.
  assert (Hin : req ∈ sent (run events initial)).
  { vm_compute. apply list_elem_of_here. }
  split; [exact Hin|].
  exact (proj1 source_type_drawn_from_options events req Hin).
Defined.

End ScrapeFormFacts.

Module OrchestratorFacts.
Import Orchestrator.

(** ** Arithmetic of the progress ratio *)

Lemma sum_list_take_mono (l : list nat) (i j : nat) :
  (i ≤ j)%nat → (sum_list (take i l) ≤ sum_list (take j l))%nat.
Proof.
  revert i j. induction l as [|x l IH]; intros i j Hij.
  { by rewrite !take_nil. }
  destruct i as [|i]; simpl; [lia|].
  destruct j as [|j]; [lia|]. simpl.
  specialize (IH i j). lia.
Qed.

Lemma sum_list_take_le (l : list nat) (i : nat) :
  (sum_list (take i l) ≤ sum_list l)%nat.
Proof.
  destruct (decide (i ≤ length l)%nat) as [Hi|Hi].
  - rewrite <- (take_ge l (length l)) at 2 by lia. by apply sum_list_take_mono.
  - rewrite take_ge by lia. done.
Qed.

Lemma ratio_mono (a b c : nat) :
  (a ≤ b)%nat →
  (inject_Z (Z.of_nat a) / inject_Z (Z.of_nat c)
   <= inject_Z (Z.of_nat b) / inject_Z (Z.of_nat c))%Q.
Proof.
  intros Hab. unfold Qdiv. apply Qmult_le_compat_r.
  - rewrite <- Zle_Qle. lia.
  - apply Qinv_le_0_compat. change 0%Q with (inject_Z 0).
    rewrite <- Zle_Qle. lia.
Qed.

Lemma ratio_zero (c : nat) :
  (inject_Z (Z.of_nat 0) / inject_Z (Z.of_nat c) == 0)%Q.
Proof. unfold Qdiv. apply Qmult_0_l. Qed.

Lemma ratio_one (c : nat) :
  (0 < c)%nat → (inject_Z (Z.of_nat c) / inject_Z (Z.of_nat c) == 1)%Q.
Proof.
  intros Hc. unfold Qdiv. apply Qmult_inv_r.
  unfold Qeq. simpl. lia.
Qed.

Lemma ratio_le_one (a c : nat) :
  (a ≤ c)%nat →
  (inject_Z (Z.of_nat a) / inject_Z (Z.of_nat c) <= 1)%Q.
Proof.
  intros Hac. destruct c as [|c].
  - assert (a = 0%nat) as -> by lia. by rewrite ratio_zero.
  - eapply Qle_trans; [by apply ratio_mono|]. rewrite ratio_one by lia.
    apply Qle_refl.
Qed.

Section Runs.

Variable stage_weights : Kind -> list nat.

Local Abbreviation progress_after := (progress_after stage_weights).
Local Abbreviation step := (step stage_weights).
Local Abbreviation exec := (exec stage_weights).
Local Abbreviation run := (run stage_weights).
Local Abbreviation job_ok := (job_ok stage_weights).
Local Abbreviation system_ok := (system_ok stage_weights).

Lemma progress_after_0 (k : Kind) : progress_after k 0 = 0%Q.
Proof.
  unfold Orchestrator.progress_after. rewrite take_0. simpl sum_list.
  rewrite (Qred_complete _ 0%Q); [reflexivity|]. apply ratio_zero.
Qed.

Lemma progress_after_mono (k : Kind) (i j : nat) :
  (i ≤ j)%nat → (progress_after k i <= progress_after k j)%Q.
Proof.
  intros Hij. unfold Orchestrator.progress_after. rewrite !Qred_correct.
  by apply ratio_mono, sum_list_take_mono.
Qed.

Lemma progress_after_bounds (k : Kind) (i : nat) :
  (0 <= progress_after k i)%Q ∧ (progress_after k i <= 1)%Q.
Proof.
  split.
  - rewrite <- (progress_after_0 k). apply progress_after_mono. lia.
  - unfold Orchestrator.progress_after. rewrite Qred_correct.
    apply ratio_le_one, sum_list_take_le.
Qed.

Lemma progress_after_all (k : Kind) :
  (0 < sum_list (stage_weights k))%nat →
  progress_after k (length (stage_weights k)) = 1%Q.
Proof.
  intros Hpos. unfold Orchestrator.progress_after. rewrite take_ge by lia.
  rewrite (Qred_complete _ 1%Q); [reflexivity|]. by apply ratio_one.
Qed.

(** ** One transition *)

Lemma job_ok_frame (s s' : System) (j : Job) :
  stages_done s' !! id j = stages_done s !! id j → job_ok s j → job_ok s' j.
Proof.
  intros Heq [Hin Hj]. split; [done|].
  destruct (status j); try done. by rewrite Heq.
Qed.

(** A transition either changes nothing, or adds a pending job under the
    next identifier, or rewrites the record of one job that was not
    terminal. *)
Lemma step_cases (s : System) (e : Event) :
  system_ok s →
  ((step s e).1 = s ∧ ∀ i, (step s e).2 ≠ Accepted i)
  ∨ (∃ j, (step s e).2 = Accepted (next_id (store s))
          ∧ records (store (step s e).1)
            = <[next_id (store s) := j]> (records (store s))
          ∧ next_id (store (step s e).1) = S (next_id (store s))
          ∧ stages_done (step s e).1 = stages_done s
          ∧ id j = next_id (store s)
          ∧ job_ok (step s e).1 j)
  ∨ (∃ jobId j j', (step s e).2 = NoReply
          ∧ records (store s) !! jobId = Some j
          ∧ records (store (step s e).1) = <[jobId := j']> (records (store s))
          ∧ next_id (store (step s e).1) = next_id (store s)
          ∧ (∀ i, i ≠ jobId → stages_done (step s e).1 !! i = stages_done s !! i)
          ∧ id j' = jobId
          ∧ job_ok (step s e).1 j'
          ∧ is_terminal (status j) = false
          ∧ (progress j <= progress j')%Q).
Proof.
  intros Hok.
  destruct e as [k i|jobId|jobId out|jobId err]; unfold Orchestrator.step.
  - (* Submit *)
    destruct (input_nonempty i) eqn:Hin; [|left; by split].
    right; left. eexists. simpl. split_and!; try reflexivity.
    split; [done|]. by simpl.
  - (* Pickup *)
    unfold Get, Update.
    destruct (records (store s) !! jobId) as [j|] eqn:Hj; [|left; by split].
    destruct (Hok _ _ Hj) as (Hid & Hlt & Hin & Hjok).
    destruct (status j) eqn:Hst; try (left; by split).
    right; right. exists jobId, j, (start_job (clock s) j). simpl.
    split_and!; try done.
    + intros i Hi. by rewrite lookup_insert_ne.
    + split; [done|]. simpl. destruct Hjok as (Hp & Hr & He).
      split_and!; try done. exists 0%nat.
      rewrite Hid, lookup_insert_eq, Hp, progress_after_0.
      split_and!; [done | lia | done].
    + by rewrite Hst.
    + apply Qle_refl.
  - (* StageSucceeded *)
    unfold Get, Update.
    destruct (records (store s) !! jobId) as [j|] eqn:Hj; [|left; by split].
    destruct (Hok _ _ Hj) as (Hid & Hlt & Hin & Hjok).
    destruct (stages_done s !! jobId) as [d|] eqn:Hdone; [|left; by split].
    cbv zeta.
    destruct (status j) eqn:Hst; try (left; by split).
    destruct (d <? length (stage_weights (kind j)))%nat eqn:Hlast;
      [|left; by split].
    apply Nat.ltb_lt in Hlast.
    destruct Hjok as ((d' & Hd' & Hle & Hp) & Hr & He).
    rewrite Hid, Hdone in Hd'. injection Hd' as <-.
    right; right.
    destruct (S d =? length (stage_weights (kind j)))%nat eqn:Hfin.
    + apply Nat.eqb_eq in Hfin.
      eexists jobId, j, _. cbn [fst snd store records next_id stages_done].
      split_and!; try done.
      * intros i Hi. by rewrite lookup_delete_ne.
      * split; [done|]. cbn [status advance_job kind progress result error].
        rewrite Hfin. by split_and!.
      * by rewrite Hst.
      * cbn [progress advance_job]. rewrite Hp. apply progress_after_mono. lia.
    + apply Nat.eqb_neq in Hfin.
      eexists jobId, j, _. cbn [fst snd store records next_id stages_done].
      split_and!; try done.
      * intros i Hi. by rewrite lookup_insert_ne.
      * split; [done|].
        cbn [status advance_job kind progress result error id stages_done].
        split_and!; try done.
        exists (S d). rewrite Hid, lookup_insert_eq.
        split_and!; [done | lia | done].
      * by rewrite Hst.
      * cbn [progress advance_job]. rewrite Hp. apply progress_after_mono. lia.
  - (* StageFailed *)
    unfold Get, Update.
    destruct (records (store s) !! jobId) as [j|] eqn:Hj; [|left; by split].
    destruct (Hok _ _ Hj) as (Hid & Hlt & Hin & Hjok).
    destruct (status j) eqn:Hst; try (left; by split).
    destruct Hjok as ((done' & Hd' & Hle & Hp) & Hr & He).
    right; right. exists jobId, j, (fail_job err (clock s) j). simpl.
    split_and!; try done.
    + intros i Hi. by rewrite lookup_delete_ne.
    + split; [done|]. simpl. split_and!; eauto.
    + by rewrite Hst.
    + apply Qle_refl.
Qed.

Lemma step_ok (s : System) (e : Event) :
  system_ok s → system_ok (step s e).1.
Proof.
  intros Hok.
  destruct (step_cases s e Hok)
    as [[-> _]|[(jn & _ & Hrec & Hnext & Hsd & Hidn & Hjn)
               |(jobId & j & j' & _ & Hj & Hrec & Hnext & Hsd & Hid' & Hj' & _)]];
    [done|..]; intros i x; rewrite Hrec, Hnext.
  - destruct (decide (i = next_id (store s))) as [->|Hi].
    + rewrite lookup_insert_eq. intros [= <-]. split_and!; [done | lia | done].
    + rewrite lookup_insert_ne by done. intros Hx.
      destruct (Hok _ _ Hx) as (Hid & Hlt & Hjok).
      split_and!; [done | lia |]. eapply job_ok_frame; [|done]. by rewrite Hsd.
  - destruct (decide (i = jobId)) as [->|Hi].
    + rewrite lookup_insert_eq. intros [= <-].
      destruct (Hok _ _ Hj) as (_ & Hlt & _). by split_and!.
    + rewrite lookup_insert_ne by done. intros Hx.
      destruct (Hok _ _ Hx) as (Hid & Hlt & Hjok).
      split_and!; [done | done |]. eapply job_ok_frame; [|done].
      rewrite Hid. by apply Hsd.
Qed.

(** A transition keeps every job, never lowers its progress, and leaves
    the record of a terminal job exactly as it is. *)
Lemma step_job (s : System) (e : Event) (i : nat) (j : Job) :
  system_ok s → Query i s = Some j →
  ∃ j', Query i (step s e).1 = Some j'
        ∧ (progress j <= progress j')%Q
        ∧ (is_terminal (status j) = true → j' = j).
Proof.
  unfold Query, Get. intros Hok Hi.
  destruct (step_cases s e Hok)
    as [[-> _]|[(jn & _ & Hrec & _)
               |(jobId & j0 & j' & _ & Hj & Hrec & _ & _ & _ & _ & Hnt & Hle)]].
  - exists j. split_and!; [done | apply Qle_refl | done].
  - exists j. rewrite Hrec.
    destruct (Hok _ _ Hi) as (_ & Hlt & _).
    rewrite lookup_insert_ne by lia.
    split_and!; [done | apply Qle_refl | done].
  - rewrite Hrec. destruct (decide (i = jobId)) as [->|Hne].
    + rewrite lookup_insert_eq. exists j'.
      assert (j0 = j) as -> by congruence.
      split_and!; [done | done | congruence].
    + rewrite lookup_insert_ne by done. exists j.
      split_and!; [done | apply Qle_refl | done].
Qed.

(** ** Runs *)

Lemma run_snoc (events : list Event) (e : Event) :
  run (events ++ [e]) = exec (run events) e.
Proof. unfold Orchestrator.run. by rewrite foldl_snoc. Qed.

Lemma run_ok (events : list Event) : system_ok (run events).1.
Proof.
  induction events as [|e events IH] using rev_ind.
  - intros i j. simpl. by rewrite lookup_empty.
  - rewrite run_snoc. by apply step_ok.
Qed.

(** Every identifier below the next one was handed out by a submission. *)
Lemma run_accepted (events : list Event) (i : nat) :
  (i < next_id (store (run events).1))%nat → Accepted i ∈ (run events).2.
Proof.
  induction events as [|e events IH] using rev_ind.
  { simpl. lia. }
  rewrite run_snoc. unfold Orchestrator.exec. cbn [fst snd].
  rewrite elem_of_app, list_elem_of_singleton.
  destruct (step_cases (run events).1 e (run_ok events))
    as [[-> _]|[(jn & -> & _ & -> & _)
               |(jobId & j0 & j' & _ & _ & _ & -> & _)]].
  - auto.
  - intros Hlt. destruct (decide (i = next_id (store (run events).1))) as [->|].
    + by right.
    + left. apply IH. lia.
  - auto.
Qed.

Lemma run_job_later (events more : list Event) (i : nat) (j : Job) :
  Query i (run events).1 = Some j →
  ∃ j', Query i (run (events ++ more)).1 = Some j'
        ∧ (progress j <= progress j')%Q
        ∧ (is_terminal (status j) = true → j' = j).
Proof.
  intros Hj. induction more as [|e more IH] using rev_ind.
  - rewrite app_nil_r. exists j. split_and!; [done | apply Qle_refl | done].
  - destruct IH as (j1 & Hj1 & Hle1 & Hterm1).
    rewrite app_assoc, run_snoc. unfold Orchestrator.exec. cbn [fst].
    destruct (step_job _ e i j1 (run_ok _) Hj1) as (j2 & Hj2 & Hle2 & Hterm2).
    exists j2. split_and!; [done | by eapply Qle_trans |].
    intros Hterm. specialize (Hterm1 Hterm). subst j1. by apply Hterm2.
Qed.

Lemma job_ok_bounds (s : System) (j : Job) :
  job_ok s j → (0 <= progress j)%Q ∧ (progress j <= 1)%Q.
Proof.
  intros [_ Hj]. destruct (status j).
  - destruct Hj as (-> & _). done.
  - destruct Hj as ((d & _ & _ & ->) & _). apply progress_after_bounds.
  - destruct Hj as (-> & _). apply progress_after_bounds.
  - destruct Hj as ((d & ->) & _). apply progress_after_bounds.
Qed.

Lemma List_records (limit offset : nat) (st : JobStore) (j : Job) :
  j ∈ List limit offset st → ∃ i, records st !! i = Some j.
Proof.
  unfold List. intros Hin.
  apply subseteq_take, subseteq_drop, list_elem_of_omap in Hin
    as (i & _ & Hi).
  eauto.
Qed.

Lemma run_app_fst (events more : list Event) :
  (run (events ++ more)).1
  = foldl (fun s e => (step s e).1) (run events).1 more.
Proof.
  induction more as [|e more IH] using rev_ind.
  - by rewrite app_nil_r.
  - by rewrite app_assoc, run_snoc, foldl_snoc, <- IH.
Qed.

(** Terminal states are sinks: the record of a completed or failed job is
    the same in every later state of the run. *)
Lemma terminal_state_is_sink (events more : list Event) (i : nat) (j : Job) :
  Query i (run events).1 = Some j → is_terminal (status j) = true →
  Query i (run (events ++ more)).1 = Some j.
Proof.
  intros Hj Hterm.
  destruct (run_job_later events more i j Hj) as (j' & Hj' & _ & Hsame).
  by rewrite Hj', (Hsame Hterm).
Qed.

(** C1. In every run of the engine, given stage weights whose sum is
    positive for every kind, the progress of a job is a rational between
    0 and 1; it is exactly 1 when the job is completed; and at any later
    point of the run the job is still there with a progress that is not
    smaller, that is still 1 if the job was completed, and that is
    unchanged, with the job still failed, if the job was failed. *)
Theorem progress_bounded_monotone_frozen
  (events more : list Event) (i : nat) (j : Job) :
  (∀ k, (0 < sum_list (stage_weights k))%nat) →
  Query i (run events).1 = Some j →
  (0 <= progress j)%Q ∧ (progress j <= 1)%Q
  ∧ (status j = completed → progress j = 1%Q)
  ∧ ∃ j', Query i (run (events ++ more)).1 = Some j'
          ∧ (progress j <= progress j')%Q
          ∧ (status j = completed → status j' = completed ∧ progress j' = 1%Q)
          ∧ (status j = failed → status j' = failed ∧ progress j' = progress j).
Proof.
  intros Hpos Hj.
  destruct (run_ok events i j Hj) as (_ & _ & Hjok).
  destruct (job_ok_bounds _ _ Hjok) as [H0 H1].
  assert (Hdone : status j = completed → progress j = 1%Q).
  { intros Hst. destruct Hjok as [_ Hjok]. rewrite Hst in Hjok.
    destruct Hjok as (-> & _). by apply progress_after_all. }
  destruct (run_job_later events more i j Hj) as (j' & Hj' & Hle & Hsame).
  split_and!; try done. exists j'. split_and!; try done.
  - intros Hst. rewrite Hsame by (by rewrite Hst). auto.
  - intros Hst. rewrite Hsame by (by rewrite Hst). auto.
Qed.

(** C2. In every run of the engine a job has a result exactly when it is
    completed and an error exactly when it is failed; so a terminal job
    has exactly one of the two, and a pending or running job has neither. *)
Theorem result_xor_error_iff_terminal (events : list Event) (i : nat) (j : Job) :
  Query i (run events).1 = Some j →
  (is_Some (result j) ↔ status j = completed)
  ∧ (is_Some (error j) ↔ status j = failed)
  ∧ (is_terminal (status j) = true →
     (is_Some (result j) ∧ error j = None) ∨ (result j = None ∧ is_Some (error j)))
  ∧ (is_terminal (status j) = false → result j = None ∧ error j = None).
Proof.
  intros Hj. destruct (run_ok events i j Hj) as (_ & _ & _ & Hjok).
  destruct (status j); simpl.
  - destruct Hjok as (_ & -> & ->).
    repeat split; try done; by intros [? [=]].
  - destruct Hjok as (_ & -> & ->).
    repeat split; try done; by intros [? [=]].
  - destruct Hjok as (_ & Hr & ->).
    repeat split; try done; try (by intros [? [=]]); auto.
  - destruct Hjok as (_ & -> & He).
    repeat split; try done; try (by intros [? [=]]); auto.
Qed.

(** C5. A submission whose prompt is the empty string is answered at
    once with [ValidationError] and leaves the engine as it was, so every
    listing is what it was before; a run with such a submission in it
    ends in the same state as the run without it; and no job of any run,
    queried or listed, has the empty prompt as its input. On the side of
    the caller, the scrape form with an empty prompt returns from its
    submit handler without sending a request or reporting a job. *)
Theorem empty_prompt_is_rejected
  (s : System) (events more : list Event) (k : Kind) (h : SourceTypeHint) :
  step s (Submit k (PromptInput "" h)) = (s, Rejected ValidationError)
  ∧ (∀ limit offset,
       List limit offset (store (step s (Submit k (PromptInput "" h))).1)
       = List limit offset (store s))
  ∧ (run (events ++ Submit k (PromptInput "" h) :: more)).1
    = (run (events ++ more)).1
  ∧ (∀ i j, Query i (run events).1 = Some j → input j ≠ PromptInput "" h)
  ∧ (∀ limit offset j,
       j ∈ List limit offset (store (run events).1) →
       input j ≠ PromptInput "" h)
  ∧ (∀ respond form,
       ScrapeForm.prompt form = "" →
       ScrapeForm.handleSubmit respond form
       = {| ScrapeForm.next := form; ScrapeForm.sent := [];
            ScrapeForm.created := [] |}).
Proof.
  assert (Hq : ∀ i j, Query i (run events).1 = Some j → input j ≠ PromptInput "" h).
  { intros i j Hj Hin. destruct (run_ok events i j Hj) as (_ & _ & Hne & _).
    by rewrite Hin in Hne. }
  split_and!; try done.
  - by rewrite !run_app_fst.
  - intros limit offset j [i Hi]%List_records. by apply (Hq i).
  - intros respond form Hform. apply ScrapeFormFacts.handleSubmit_blank.
    by rewrite Hform.
Qed.

(** C8. In every run of the engine, a query for an identifier that no
    submission of the run was answered with finds nothing: the answer is
    not-found, not a record. *)
Theorem query_of_unknown_id_is_not_found (events : list Event) (i : nat) :
  Accepted i ∉ (run events).2 → Query i (run events).1 = None.
Proof.
  intros Hnot. destruct (Query i (run events).1) as [j|] eqn:Hj; [|done].
  destruct Hnot. apply run_accepted.
  by destruct (run_ok events i j Hj) as (_ & Hlt & _).
Qed.

End Runs.

Lemma equal_split_positive (k : Kind) : (0 < sum_list (equal_split k))%nat.
Proof. destruct k; simpl; lia. Qed.

Lemma progress_bounded_monotone_frozen_witness :
  let events := take 4 scenario_events in
  let more := drop 4 scenario_events in
  ((∀ k, (0 < sum_list (equal_split k))%nat)
   ∧ Query 0 (run equal_split events).1 = Some scenario_halfway)
  ∧ ((0 <= progress scenario_halfway)%Q ∧ (progress scenario_halfway <= 1)%Q
     ∧ (status scenario_halfway = completed → progress scenario_halfway = 1%Q)
     ∧ ∃ j', Query 0 (run equal_split (events ++ more)).1 = Some j'
             ∧ (progress scenario_halfway <= progress j')%Q
             ∧ (status scenario_halfway = completed →
                status j' = completed ∧ progress j' = 1%Q)
             ∧ (status scenario_halfway = failed →
                status j' = failed ∧ progress j' = progress scenario_halfway)).
Proof.
  intros events more.
  assert (Hq : Query 0 (run equal_split events).1 = Some scenario_halfway)
    by (by vm_compute).
  split; [split; [exact equal_split_positive | exact Hq]|].
  exact (progress_bounded_monotone_frozen equal_split events more 0
           scenario_halfway equal_split_positive Hq).
Defined.

Lemma result_xor_error_iff_terminal_witness :
  Query 0 (run equal_split scenario_events).1 = Some scenario_completed
  ∧ (is_Some (result scenario_completed) ↔ status scenario_completed = completed)
  ∧ (is_Some (error scenario_completed) ↔ status scenario_completed = failed)
  ∧ (is_terminal (status scenario_completed) = true →
     (is_Some (result scenario_completed) ∧ error scenario_completed = None)
     ∨ (result scenario_completed = None ∧ is_Some (error scenario_completed)))
  ∧ (is_terminal (status scenario_completed) = false →
     result scenario_completed = None ∧ error scenario_completed = None).
Proof.
  assert (Hq : Query 0 (run equal_split scenario_events).1 = Some scenario_completed)
    by (by vm_compute).
  split; [exact Hq|].
  exact (result_xor_error_iff_terminal equal_split scenario_events 0
           scenario_completed Hq).
Defined.

Lemma empty_prompt_is_rejected_witness :
  let bad := Submit scrape (PromptInput "" auto) in
  step equal_split (run equal_split scenario_events).1 bad
  = ((run equal_split scenario_events).1, Rejected ValidationError)
  ∧ (run equal_split (scenario_events ++ bad :: [Pickup 1])).1
    = (run equal_split (scenario_events ++ [Pickup 1])).1
  ∧ (∀ i j, Query i (run equal_split scenario_events).1 = Some j →
            input j ≠ PromptInput "" auto)
  ∧ ScrapeForm.handleSubmit ScrapeForm.accept ScrapeForm.initial
    = {| ScrapeForm.next := ScrapeForm.initial; ScrapeForm.sent := [];
         ScrapeForm.created := [] |}.
Proof.
  intros bad.
  destruct (empty_prompt_is_rejected equal_split
              (run equal_split scenario_events).1 scenario_events [Pickup 1]
              scrape auto) as (Hrej & _ & Hsame & Hnone & _ & Hform).
  split_and!; [exact Hrej | exact Hsame | exact Hnone |].
  exact (Hform ScrapeForm.accept ScrapeForm.initial eq_refl).
Defined.

Lemma query_of_unknown_id_is_not_found_witness :
  (Accepted 1 ∉ (run equal_split scenario_events).2)
  ∧ Query 1 (run equal_split scenario_events).1 = None.
Proof.
  assert (Hnot : Accepted 1 ∉ (run equal_split scenario_events).2).
  { replace (run equal_split scenario_events).2
      with [Accepted 0; NoReply; NoReply; NoReply; NoReply; NoReply]
      by (by vm_compute).
    rewrite !elem_of_cons, elem_of_nil.
    intros [[=]|[[=]|[[=]|[[=]|[[=]|[[=]|[]]]]]]]. }
  split; [exact Hnot|].
  exact (query_of_unknown_id_is_not_found equal_split scenario_events 1 Hnot).
Defined.

End OrchestratorFacts.

(* ===================================================================== *)
(** * Part III. Further properties of the components                      *)
(* ===================================================================== *)

Module JSMoreFacts.
Import JS JSMore.

Section Strip.

Variable ws : list (list ascii).
Hypothesis ws_nonempty : Forall (fun e => e ≠ []) ws.

Lemma skip_Some (l rest : list ascii) :
  skip ws l = Some rest → ∃ e, e ∈ ws ∧ e ≠ [] ∧ l = (e ++ rest)%list.
Proof.
  unfold skip. destruct (list_find _ ws) as [[i e]|] eqn:Hf; [|done].
  intros [= <-]. apply list_find_Some in Hf as (Hi & [k ->] & _).
  exists e. split_and!.
  - by eapply list_elem_of_lookup_2.
  - eapply Forall_lookup_1 in ws_nonempty; [|exact Hi]. done.
  - by rewrite drop_app_length.
Qed.

Lemma skip_None (l e : list ascii) :
  skip ws l = None → e ∈ ws → ¬ e `prefix_of` l.
Proof.
  unfold skip. destruct (list_find _ ws) as [[i e']|] eqn:Hf; [done|].
  intros _ He. apply list_find_None in Hf.
  by eapply Forall_forall in Hf.
Qed.

Lemma skip_is_Some (l e : list ascii) :
  e ∈ ws → e `prefix_of` l → is_Some (skip ws l).
Proof.
  intros He Hp. destruct (skip ws l) eqn:Hs; [done|].
  by destruct (skip_None l e Hs He).
Qed.

Lemma skip_length (l rest : list ascii) :
  skip ws l = Some rest → (length rest < length l)%nat.
Proof.
  intros (e & _ & Hne & ->)%skip_Some. rewrite length_app.
  destruct e; [done|]. simpl. lia.
Qed.

Lemma skip_prefix (p l : list ascii) :
  p `prefix_of` l → skip ws l = None → skip ws p = None.
Proof.
  intros Hp Hl. destruct (skip ws p) as [rest|] eqn:Hs; [|done].
  apply skip_Some in Hs as (e & He & _ & ->).
  destruct (skip_None l e Hl He). etrans; [|exact Hp]. by apply prefix_app_r.
Qed.

Lemma strip_fixed (fuel : nat) (l : list ascii) :
  skip ws l = None → strip ws fuel l = l.
Proof. intros H. destruct fuel; simpl; [done|]. by rewrite H. Qed.

(** With fuel for every byte, [strip] removes a sequence of encodings and
    stops where no encoding starts. *)
Lemma strip_spec (fuel : nat) (l : list ascii) :
  (length l ≤ fuel)%nat →
  ∃ es, Forall (fun e => e ∈ ws) es
        ∧ l = (concat es ++ strip ws fuel l)%list
        ∧ skip ws (strip ws fuel l) = None.
Proof.
  revert l. induction fuel as [|fuel IH]; intros l Hlen.
  - destruct l; [|simpl in Hlen; lia]. exists []. split_and!; try done.
    simpl. destruct (skip ws []) as [rest|] eqn:Hs; [|done].
    apply skip_length in Hs. simpl in Hs. lia.
  - simpl. destruct (skip ws l) as [rest|] eqn:Hs.
    + pose proof (skip_length _ _ Hs) as Hlt.
      apply skip_Some in Hs as (e & He & _ & ->).
      destruct (IH rest) as (es & Hes & Heq & Hnone); [lia|].
      exists (e :: es). split_and!; [by constructor | | done].
      simpl. rewrite <- app_assoc. by rewrite <- Heq.
    + exists []. by split_and!.
Qed.

Lemma only_strip (fuel : nat) (l : list ascii) :
  (length l ≤ fuel)%nat → only ws fuel l = true ↔ strip ws fuel l = [].
Proof.
  revert l. induction fuel as [|fuel IH]; intros l Hlen.
  - destruct l; [done|]. simpl in Hlen. lia.
  - destruct l as [|c l]; simpl.
    + destruct (skip ws []) as [rest|] eqn:Hs; [|done].
      apply skip_length in Hs. simpl in Hs. lia.
    + destruct (skip ws (c :: l)) as [rest|] eqn:Hs; [|done].
      apply IH. apply skip_length in Hs. simpl in *. lia.
Qed.

End Strip.

Lemma reversed_nonempty (ws : list (list ascii)) :
  Forall (fun e => e ≠ []) ws → Forall (fun e => e ≠ []) (reverse <$> ws).
Proof.
  intros H. apply Forall_fmap. eapply Forall_impl; [exact H|].
  intros e He Hr. simpl in Hr. apply He.
  by rewrite <- (reverse_involutive e), Hr.
Qed.

(** Stripping at the end leaves a prefix. *)
Lemma strip_end_prefix (ws : list (list ascii)) (fuel : nat) (l : list ascii) :
  Forall (fun e => e ≠ []) ws → (length l ≤ fuel)%nat →
  reverse (strip (reverse <$> ws) fuel (reverse l)) `prefix_of` l.
Proof.
  intros Hne Hlen.
  destruct (strip_spec (reverse <$> ws) (reversed_nonempty ws Hne) fuel (reverse l))
    as (es & _ & Heq & _); [by rewrite length_reverse|].
  exists (reverse (concat es)).
  rewrite <- reverse_app, <- Heq. by rewrite reverse_involutive.
Qed.

(** Where no encoding starts, stripping at the end cannot eat everything. *)
Lemma strip_end_nil (ws : list (list ascii)) (fuel : nat) (l : list ascii) :
  Forall (fun e => e ≠ []) ws → (length l ≤ fuel)%nat →
  skip ws l = None →
  strip (reverse <$> ws) fuel (reverse l) = [] → l = [].
Proof.
  intros Hne Hlen Hskip Hnil.
  destruct (strip_spec (reverse <$> ws) (reversed_nonempty ws Hne) fuel (reverse l))
    as (es & Hes & Heq & _); [by rewrite length_reverse|].
  rewrite Hnil, app_nil_r in Heq.
  destruct es as [|re es _] using rev_ind.
  - simpl in Heq. by apply (inj reverse).
  - apply Forall_app in Hes as [_ Hre]. apply Forall_inv in Hre.
    apply list_elem_of_fmap in Hre as (e & -> & He).
    rewrite concat_app in Heq. simpl in Heq. rewrite app_nil_r in Heq.
    destruct (skip_None ws l e Hskip He).
    exists (reverse (concat es)).
    rewrite <- (reverse_involutive e), <- reverse_app, <- Heq.
    by rewrite reverse_involutive.
Qed.


(** ** Trimming strings *)

Lemma white_space_nonempty : Forall (fun e => e ≠ []) white_space.
Proof. apply (bool_decide_unpack _). by vm_compute. Qed.

Lemma length_bytes (s : string) :
  length (list_ascii_of_string s) = String.length s.
Proof. induction s as [|c s IH]; simpl; congruence. Qed.

Lemma bytes_inj (s t : string) :
  list_ascii_of_string s = list_ascii_of_string t → s = t.
Proof.
  intros H. rewrite <- (string_of_list_ascii_of_string s), H.
  apply string_of_list_ascii_of_string.
Qed.

Lemma bytes_trimStart (s : string) :
  list_ascii_of_string (trimStart s)
  = strip white_space (length (list_ascii_of_string s)) (list_ascii_of_string s).
Proof.
  unfold trimStart. by rewrite list_ascii_of_string_of_list_ascii, length_bytes.
Qed.

Lemma bytes_trimEnd (s : string) :
  list_ascii_of_string (trimEnd s)
  = reverse (strip (reverse <$> white_space) (length (list_ascii_of_string s))
                   (reverse (list_ascii_of_string s))).
Proof.
  unfold trimEnd. by rewrite list_ascii_of_string_of_list_ascii, length_bytes.
Qed.

Lemma starts_with_space_false (s : string) :
  starts_with_space s = false ↔ skip white_space (list_ascii_of_string s) = None.
Proof. unfold starts_with_space. by destruct (skip _ _). Qed.

Lemma ends_with_space_false (s : string) :
  ends_with_space s = false
  ↔ skip (reverse <$> white_space) (reverse (list_ascii_of_string s)) = None.
Proof. unfold ends_with_space. by destruct (skip _ _). Qed.

Lemma trimStart_no_space (s : string) : starts_with_space (trimStart s) = false.
Proof.
  apply starts_with_space_false. rewrite bytes_trimStart.
  by destruct (strip_spec white_space white_space_nonempty
                 (length (list_ascii_of_string s)) (list_ascii_of_string s))
    as (_ & _ & _ & H).
Qed.

Lemma trimEnd_no_space (s : string) : ends_with_space (trimEnd s) = false.
Proof.
  apply ends_with_space_false. rewrite bytes_trimEnd, reverse_involutive.
  destruct (strip_spec (reverse <$> white_space)
              (reversed_nonempty _ white_space_nonempty)
              (length (list_ascii_of_string s)) (reverse (list_ascii_of_string s)))
    as (_ & _ & _ & H); [by rewrite length_reverse | done].
Qed.

(** [trimEnd] returns a prefix of its argument. *)
Lemma trimEnd_prefix (s : string) :
  list_ascii_of_string (trimEnd s) `prefix_of` list_ascii_of_string s.
Proof.
  rewrite bytes_trimEnd. apply strip_end_prefix; [exact white_space_nonempty | done].
Qed.

Lemma trimEnd_keeps_start (s : string) :
  starts_with_space s = false → starts_with_space (trimEnd s) = false.
Proof.
  rewrite !starts_with_space_false.
  apply skip_prefix; [exact white_space_nonempty | apply trimEnd_prefix].
Qed.

Lemma trim_no_space (s : string) :
  starts_with_space (trim s) = false ∧ ends_with_space (trim s) = false.
Proof.
  unfold trim. split.
  - apply trimEnd_keeps_start, trimStart_no_space.
  - apply trimEnd_no_space.
Qed.

Lemma trimStart_fixed (s : string) :
  starts_with_space s = false → trimStart s = s.
Proof.
  intros H%starts_with_space_false. apply bytes_inj.
  rewrite bytes_trimStart. by apply strip_fixed.
Qed.

Lemma trimEnd_fixed (s : string) :
  ends_with_space s = false → trimEnd s = s.
Proof.
  intros H%ends_with_space_false. apply bytes_inj.
  rewrite bytes_trimEnd, strip_fixed by done. apply reverse_involutive.
Qed.

(** A string that neither starts nor ends with white space is left as
    it is. *)
Lemma trim_fixed (s : string) :
  starts_with_space s = false → ends_with_space s = false → trim s = s.
Proof.
  intros Hs He. unfold trim. by rewrite (trimStart_fixed s Hs), trimEnd_fixed.
Qed.

Lemma trim_idempotent (s : string) : trim (trim s) = trim s.
Proof. destruct (trim_no_space s). by apply trim_fixed. Qed.

Lemma blank_trimStart (s : string) : blank s = true ↔ trimStart s = "".
Proof.
  unfold blank. rewrite <- length_bytes.
  rewrite (only_strip white_space white_space_nonempty) by done.
  rewrite <- bytes_trimStart. split.
  - intros H. by apply bytes_inj.
  - by intros ->.
Qed.

(** [trim] gives the empty string exactly on the strings made of white
    space only. *)
Lemma trim_empty_iff (s : string) : trim s = "" ↔ blank s = true.
Proof.
  rewrite blank_trimStart. unfold trim. split.
  - intros H. apply bytes_inj. simpl.
    assert (Hb : list_ascii_of_string (trimEnd (trimStart s)) = []) by by rewrite H.
    rewrite bytes_trimEnd in Hb.
    eapply (strip_end_nil white_space); [exact white_space_nonempty | reflexivity | |].
    + apply starts_with_space_false, trimStart_no_space.
    + apply (inj reverse). by rewrite Hb.
  - by intros ->.
Qed.

(** The white space beyond ASCII is trimmed like the blank and the line
    feed, at both ends and not in the middle. *)
Lemma trim_unicode_white_space :
  trim (no_break_space ++ " a" ++ ideographic_space ++ "b"
        ++ byte_order_mark ++ String "010" no_break_space)
  = "a" ++ ideographic_space ++ "b"
  ∧ blank (no_break_space ++ ideographic_space ++ byte_order_mark) = true
  ∧ blank ("a" ++ no_break_space) = false
  ∧ utf8 0xA0 = [byte 0xC2; byte 0xA0]
  ∧ utf8 0x3000 = [byte 0xE3; byte 0x80; byte 0x80]
  ∧ utf8 0xFEFF = [byte 0xEF; byte 0xBB; byte 0xBF].
Proof. by vm_compute. Qed.

Lemma truthy_trim (s : string) : truthy (trim s) = negb (blank s).
Proof.
  unfold truthy. destruct (String.eqb_spec (trim s) "") as [H|H].
  - apply trim_empty_iff in H. by rewrite H.
  - destruct (blank s) eqn:Hb; [|done]. by apply trim_empty_iff in Hb.
Qed.

End JSMoreFacts.

Module JobStatusMoreFacts.
Import JS JSFacts JobStatus JobStatusFacts.

(** ** The cards *)

(** X1. A card shows at most one of its three boxes: the progress bar,
    the result box and the error box are never rendered together; and
    the progress bar is there exactly for a running or pending job. *)
Theorem card_shows_at_most_one_box (job : Job) :
  is_set (card_progress_width (render_job job)) = is_active (status job)
  ∧ is_set (card_progress_width (render_job job))
    && is_set (card_result (render_job job)) = false
  ∧ is_set (card_progress_width (render_job job))
    && is_set (card_error (render_job job)) = false
  ∧ is_set (card_result (render_job job))
    && is_set (card_error (render_job job)) = false.
Proof.
  unfold render_job, is_active. cbn [card_progress_width card_result card_error].
  destruct (String.eqb_spec (status job) "completed") as [->|H1];
    [by destruct (result job)|].
  destruct (String.eqb_spec (status job) "failed") as [->|H2].
  { simpl. by split_and!. }
  by destruct ((status job =? "running") || (status job =? "pending")).
Qed.

(** A card is keyed by the id of its job. *)
Lemma card_keys (jobs : list Job) :
  card_key <$> cards_of (render jobs) = id <$> take 5 jobs.
Proof.
  destruct jobs as [|j jobs]; [done|].
  unfold render. cbn [length Nat.eqb cards_of].
  rewrite <- list_fmap_compose. by apply list_fmap_ext.
Qed.

(** X2. When the jobs have distinct ids, the cards rendered have distinct
    keys, namely the ids of the first five jobs in order. *)
Theorem card_keys_distinct (jobs : list Job) :
  NoDup (id <$> jobs) →
  card_key <$> cards_of (render jobs) = id <$> take 5 jobs
  ∧ NoDup (card_key <$> cards_of (render jobs)).
Proof.
  intros Hnd. split; [apply card_keys|].
  rewrite card_keys, fmap_take.
  eapply sublist_NoDup; [done | apply sublist_take].
Qed.

Lemma card_keys_distinct_witness :
  NoDup (id <$> [sample_running; sample_pending])
  ∧ card_key <$> cards_of (render [sample_running; sample_pending])
    = id <$> take 5 [sample_running; sample_pending]
  ∧ NoDup (card_key <$> cards_of (render [sample_running; sample_pending])).
Proof.
  assert (Hnd : NoDup (id <$> [sample_running; sample_pending]))
    by (apply (bool_decide_unpack _); by vm_compute).
  split; [exact Hnd|].
  exact (card_keys_distinct [sample_running; sample_pending] Hnd).
Defined.

(** X3. The four statuses the component knows are told apart by their
    icon and by their colour: a status with the icon, or the colour, of a
    known status is that status. The comparison is exact, so ["Completed"]
    is not known. *)
Theorem known_status_presentation_is_distinct (s s' : string) :
  is_active s || is_terminal s = true →
  getStatusIcon s' = getStatusIcon s ∨ getStatusColor s' = getStatusColor s →
  s' = s.
Proof.
  unfold is_active, is_terminal, getStatusIcon, getStatusColor.
  intros Hs.
  assert (s = "running" ∨ s = "pending" ∨ s = "completed" ∨ s = "failed")
    as [-> | [-> | [-> | ->]]].
  { destruct (String.eqb_spec s "running"); [auto|].
    destruct (String.eqb_spec s "pending"); [auto|].
    destruct (String.eqb_spec s "completed"); [auto|].
    destruct (String.eqb_spec s "failed"); [auto|]. done. }
  all: simpl.
  all: destruct (String.eqb_spec s' "completed") as [->|?];
    [by intros [?|?]|].
  all: destruct (String.eqb_spec s' "failed") as [->|?];
    [by intros [?|?]|].
  all: destruct (String.eqb_spec s' "running") as [->|?];
    [by intros [?|?]|].
  all: destruct (String.eqb_spec s' "pending") as [->|?];
    [by intros [?|?]|].
  all: by intros [?|?].
Qed.

Lemma known_status_presentation_is_distinct_witness :
  is_active "failed" || is_terminal "failed" = true
  ∧ (getStatusIcon "failed" = getStatusIcon "failed"
     ∨ getStatusColor "failed" = getStatusColor "failed")
  ∧ "failed" = "failed".
Proof.
  split; [reflexivity|]. split; [by left|].
  exact (known_status_presentation_is_distinct "failed" "failed"
           eq_refl (or_introl eq_refl)).
Defined.

(** ** Polling *)






Lemma active_iff_polled (s : State) (job : Job) :
  consistent s → job ∈ jobs s →
  id job ∈ pollingJobs s ↔ is_active (status job) = true.
Proof.
  intros Hs Hj. rewrite elem_of_pollingJobs by done. split.
  - intros (job' & Hj' & Hid & Hact).
    assert (job' = job) as -> by (destruct Hs; eauto using elem_unique_id).
    done.
  - intros Hact. eauto.
Qed.

(** X5. A firing changes the job list entry by entry: the entry of a
    running or pending job whose query is answered with a 2xx becomes the
    answer; every other entry (a job that is not polled, a query that
    fails or throws) stays as it is, at the same place. *)
Theorem firing_rewrites_answered_entries (fetch : string -> FetchResult)
  (s : State) (i : nat) (job : Job) :
  answers_for_requested_id fetch → consistent s →
  jobs s !! i = Some job →
  jobs (tick fetch s).1 !! i
  = Some (match fetch (id job) with
          | Ok jobData => if is_active (status job) then jobData else job
          | NotOk => job
          | Threw => job
          end)
  ∧ length (jobs (tick fetch s).1) = length (jobs s).
Proof.
  intros Hwb Hs Hi. rewrite tick_jobs by done.
  rewrite list_lookup_fmap, Hi, length_fmap. split; [|done].
  simpl. f_equal. unfold refresh.
  assert (Hj : job ∈ jobs s) by (by eapply list_elem_of_lookup_2).
  pose proof (active_iff_polled s job Hs Hj) as Hiff.
  destruct (is_active (status job)).
  - rewrite bool_decide_eq_true_2 by (by apply Hiff). done.
  - rewrite bool_decide_eq_false_2; [by destruct (fetch (id job))|].
    intros Hin. by apply Hiff in Hin.
Qed.

Lemma firing_rewrites_answered_entries_witness :
  let s := mount [sample_running; sample_pending] in
  (answers_for_requested_id sample_server ∧ consistent s
   ∧ jobs s !! 0%nat = Some sample_running)
  ∧ jobs (tick sample_server s).1 !! 0%nat = Some sample_completed
  ∧ length (jobs (tick sample_server s).1) = length (jobs s).
Proof.
  intros s.
  assert (Hs : consistent s).
  { apply mount_consistent. apply (bool_decide_unpack _). by vm_compute. }
  split; [split_and!; [apply sample_server_answers | exact Hs | reflexivity]|].
  exact (firing_rewrites_answered_entries sample_server s 0 sample_running
           sample_server_answers Hs eq_refl).
Defined.

(** X6. After a firing, the polling set holds exactly the ids it held
    before whose query was not answered with a status other than running
    or pending. So the set only shrinks; a failed query keeps the job in
    it; and any 2xx answer that is neither running nor pending, an
    unknown status included, takes the job out. *)
Theorem polling_set_after_firing (fetch : string -> FetchResult)
  (s : State) (jobId : string) :
  answers_for_requested_id fetch → consistent s →
  jobId ∈ pollingJobs (tick fetch s).1
  ↔ jobId ∈ pollingJobs s
    ∧ ∀ jobData, fetch jobId = Ok jobData → is_active (status jobData) = true.
Proof.
  intros Hwb Hs.
  pose proof (tick_consistent fetch s Hwb Hs) as Hs1.
  rewrite (elem_of_pollingJobs _ _ Hs1), tick_jobs by done. split.
  - intros (job' & (job & -> & Hj)%list_elem_of_fmap & Hid & Hact).
    rewrite refresh_id in Hid by done. subst jobId.
    revert Hact. unfold refresh. case_bool_decide as Hin.
    + intros Hact. split; [done|]. intros jobData Hf. by rewrite Hf in Hact.
    + intros Hact. destruct Hin. by apply active_iff_polled.
  - intros [Hin Hans].
    pose proof Hin as (job & Hj & <- & Hact)%elem_of_pollingJobs; [|done].
    exists (refresh fetch (pollingJobs s) job). split_and!.
    + apply list_elem_of_fmap. eauto.
    + by apply refresh_id.
    + unfold refresh. rewrite bool_decide_eq_true_2 by done.
      destruct (fetch (id job)) as [jobData| |] eqn:Hf; [by apply Hans|done..].
Qed.

Lemma polling_set_after_firing_witness :
  let s := mount [sample_running; sample_pending] in
  (answers_for_requested_id sample_server ∧ consistent s)
  ∧ ("job-2" ∈ pollingJobs (tick sample_server s).1
     ↔ "job-2" ∈ pollingJobs s
       ∧ ∀ jobData, sample_server "job-2" = Ok jobData →
                     is_active (status jobData) = true).
Proof.
  intros s.
  assert (Hs : consistent s).
  { apply mount_consistent. apply (bool_decide_unpack _). by vm_compute. }
  split; [split; [apply sample_server_answers | exact Hs]|].
  exact (polling_set_after_firing sample_server s "job-2"
           sample_server_answers Hs).
Defined.

Lemma ticks_idle (fetches : list (string -> FetchResult)) (s : State) :
  pollingJobs s = [] →
  ticks fetches s = (s, replicate (length fetches) []).
Proof.
  intros Hp. induction fetches as [|fetch rest IH]; simpl; [done|].
  unfold tick. rewrite Hp. cbn [length Nat.eqb]. by rewrite IH.
Qed.

(** X7. A list in which no job is running or pending is never polled:
    whatever the number of firings and whatever the server would answer,
    no request is sent and the state stays the one of the mount. *)
Theorem finished_jobs_are_never_fetched (initialJobs : list Job)
  (fetches : list (string -> FetchResult)) :
  Forall (fun job => is_active (status job) = false) initialJobs →
  ticks fetches (mount initialJobs)
  = (mount initialJobs, replicate (length fetches) []).
Proof.
  intros Hall. apply ticks_idle. unfold mount, track_active. cbn [pollingJobs jobs].
  replace (filter _ initialJobs) with (@nil Job); [done|].
  induction Hall as [|job rest Hjob _ IH]; [done|].
  rewrite filter_cons_False; [done|]. by rewrite Hjob.
Qed.

Lemma finished_jobs_are_never_fetched_witness :
  Forall (fun job => is_active (status job) = false) [sample_completed; sample_failed]
  ∧ ticks [sample_server; sample_server] (mount [sample_completed; sample_failed])
    = (mount [sample_completed; sample_failed], [[]; []]).
Proof.
  assert (Hall : Forall (fun job => is_active (status job) = false)
                   [sample_completed; sample_failed])
    by (repeat constructor).
  split; [exact Hall|].
  exact (finished_jobs_are_never_fetched [sample_completed; sample_failed]
           [sample_server; sample_server] Hall).
Defined.

End JobStatusMoreFacts.

Module ChatInterfaceMoreFacts.
Import JS JSFacts JSMore JSMoreFacts ChatInterface ChatInterfaceView.

(** X8. Submitting the chat form sends a request exactly when the input
    has a character that is not white space; on an empty or blank input
    the handler changes nothing. The Send button is disabled exactly
    while a request is pending or the input is blank. *)
Theorem chat_request_needs_text (type : ChatType) (now : nat)
  (respond : Request -> Response) (s : State) :
  (handleSubmit type now respond s).2
  = (if blank (input s) then []
     else [chat_request type (selectedCollection s) (trim (input s))])
  ∧ (if blank (input s) then (handleSubmit type now respond s).1 = s
     else input (handleSubmit type now respond s).1 = ""
          ∧ length (messages (handleSubmit type now respond s).1)
            = (length (messages s) + 2)%nat)
  ∧ send_disabled s = isLoading s || blank (input s).
Proof.
  unfold handleSubmit, send_disabled. rewrite truthy_trim.
  destruct (blank (input s)); simpl; [done|].
  split_and!; try done. rewrite length_app. simpl. lia.
Qed.

Lemma step_request_message (type : ChatType) (s : State) (e : Event)
  (req : Request) :
  req ∈ (step type s e).2 →
  ∃ text, blank text = false
          ∧ JS.get "message" (body req) = Some (JStr (trim text)).
Proof.
  destruct e as [value|collections index|now respond|]; simpl.
  - by intros ?%elem_of_nil.
  - destruct (collection_options collections !! index); [|by intros ?%elem_of_nil].
    destruct (selector_shown type collections); by intros ?%elem_of_nil.
  - destruct (chat_request_needs_text type now respond s) as (-> & _).
    destruct (blank (input s)) eqn:Hb.
    + by intros ?%elem_of_nil.
    + intros ->%list_elem_of_singleton. eauto.
  - by intros ?%elem_of_nil.
Qed.

Lemma run_request_message (type : ChatType) (events : list Event) (s : State)
  (req : Request) :
  req ∈ (run type events s).2 →
  ∃ text, blank text = false
          ∧ JS.get "message" (body req) = Some (JStr (trim text)).
Proof.
  revert s. induction events as [|e rest IH]; intros s; simpl.
  { by intros ?%elem_of_nil. }
  pose proof (step_request_message type s e req) as Hstep.
  destruct (step type s e) as [s1 reqs].
  specialize (IH s1). destruct (run type rest s1) as [s2 more].
  simpl in *. rewrite elem_of_app. intros [Hin|Hin]; auto.
Qed.

(** An input of white space beyond ASCII is blank like one of blanks:
    nothing is sent and Send is disabled; around a text it is trimmed
    from the message. *)
Lemma chat_input_of_unicode_white_space :
  let s := (step data initial (ChangeInput no_break_space)).1 in
  let s' := (step data initial
               (ChangeInput (ideographic_space ++ "Find documents about AI"
                             ++ no_break_space))).1 in
  handleSubmit data 1000 echo s = (s, [])
  ∧ send_disabled s = true
  ∧ (handleSubmit data 1000 echo s').2
    = [chat_request data "" "Find documents about AI"].
Proof. by vm_compute. Qed.

(** X9. Whatever the session, the message of every chat request sent is
    not empty and neither starts nor ends with white space. *)
Theorem chat_messages_are_trimmed (type : ChatType) (events : list Event)
  (req : Request) :
  req ∈ (run type events initial).2 →
  ∃ message,
    JS.get "message" (body req) = Some (JStr message)
    ∧ message ≠ ""
    ∧ starts_with_space message = false
    ∧ ends_with_space message = false
    ∧ trim message = message.
Proof.
  intros (text & Hb & Hm)%run_request_message.
  exists (trim text). destruct (trim_no_space text) as [Hs He].
  split_and!; try done.
  - intros Hempty%trim_empty_iff. congruence.
  - apply trim_idempotent.
Qed.

Lemma chat_messages_are_trimmed_witness :
  let events := [ChangeInput "  Find documents about AI  "; Submit 1000 echo] in
  let req := chat_request data "" "Find documents about AI" in
  req ∈ (run data events initial).2
  ∧ ∃ message,
      JS.get "message" (body req) = Some (JStr message)
      ∧ message ≠ ""
      ∧ starts_with_space message = false
      ∧ ends_with_space message = false
      ∧ trim message = message.
Proof.
  intros events req.
  assert (Hin : req ∈ (run data events initial).2).
  { vm_compute. apply list_elem_of_here. }
  split; [exact Hin|].
  exact (chat_messages_are_trimmed data events req Hin).
Defined.

(** ** The transcript *)

Lemma exchanges_app (l k : list Message) :
  exchanges l = true → exchanges (l ++ k) = exchanges k.
Proof.
  assert (∀ l, (exchanges l = true → exchanges (l ++ k) = exchanges k)
               ∧ (∀ x, exchanges (x :: l) = true →
                       exchanges ((x :: l) ++ k) = exchanges k)) as Hboth.
  { clear l. induction l as [|y l [IH1 IH2]].
    - split; [done|]. by intros x.
    - split; [apply IH2|].
      intros x. simpl. by destruct (type x), (type y). }
  apply Hboth.
Qed.

Lemma handleSubmit_transcript (type : ChatType) (now : nat)
  (respond : Request -> Response) (s : State) :
  exchanges (messages s) = true →
  exchanges (messages (handleSubmit type now respond s).1) = true
  ∧ length (messages (handleSubmit type now respond s).1)
    = (length (messages s) + 2 * length (handleSubmit type now respond s).2)%nat.
Proof.
  intros Hs. unfold handleSubmit.
  destruct (truthy (trim (input s))); simpl.
  - rewrite exchanges_app by done. split; [done|].
    rewrite length_app. simpl. lia.
  - split; [done|lia].
Qed.

Lemma step_transcript (type : ChatType) (s : State) (e : Event) :
  exchanges (messages s) = true →
  exchanges (messages (step type s e).1) = true
  ∧ (length (messages (step type s e).1)
     ≤ length (messages s) + 2 * length (step type s e).2)%nat
  ∧ (length (step type s e).2 ≤ if is_submit e then 1 else 0)%nat.
Proof.
  intros Hs. destruct e as [value|collections index|now respond|]; simpl.
  - split_and!; [done | lia | lia].
  - destruct (collection_options collections !! index);
      [destruct (selector_shown type collections)|];
      simpl; split_and!; try done; lia.
  - destruct (handleSubmit_transcript type now respond s Hs) as [He Hl].
    split_and!; [done | lia |].
    unfold handleSubmit. destruct (truthy _); simpl; lia.
  - split_and!; [done | lia | lia].
Qed.

Lemma run_transcript (type : ChatType) (events : list Event) (s : State) :
  exchanges (messages s) = true →
  exchanges (messages (run type events s).1) = true
  ∧ (length (messages (run type events s).1)
     ≤ length (messages s) + 2 * length (run type events s).2)%nat
  ∧ (length (run type events s).2 ≤ submissions events)%nat.
Proof.
  revert s. induction events as [|e rest IH]; intros s Hs.
  { simpl. split_and!; [done | lia | lia]. }
  simpl. destruct (step_transcript type s e Hs) as (He & Hl & Hn).
  destruct (step type s e) as [s1 reqs]. simpl in *.
  destruct (IH s1 He) as (He' & Hl' & Hn').
  destruct (run type rest s1) as [s2 more]. simpl in *.
  rewrite length_app. split_and!; [done | lia |].
  unfold submissions in *. destruct (is_submit e) eqn:Hsub.
  - rewrite filter_cons_True by done. simpl. lia.
  - rewrite filter_cons_False by congruence. lia.
Qed.

(** X10. In every session in which each request settles before the next
    event ([handleSubmit] run to completion), the transcript is a
    sequence of exchanges, a user message followed by the assistant's
    message for it, a failed request included; it holds at most two
    messages per request sent, and at most one request is sent per
    submission. *)
Theorem transcript_is_made_of_exchanges (type : ChatType) (events : list Event) :
  exchanges (messages (run type events initial).1) = true
  ∧ (length (messages (run type events initial).1)
     ≤ 2 * length (run type events initial).2)%nat
  ∧ (length (run type events initial).2 ≤ submissions events)%nat.
Proof.
  destruct (run_transcript type events initial eq_refl) as (He & Hl & Hn).
  simpl in Hl. by split_and!.
Qed.

Lemma run_config_selection (events : list Event) (s : State) :
  selectedCollection (run config events s).1 = selectedCollection s.
Proof.
  revert s. induction events as [|e rest IH]; intros s; simpl; [done|].
  assert (Hstep : selectedCollection (step config s e).1 = selectedCollection s).
  { destruct e as [value|collections index|now respond|]; simpl; try done.
    - by destruct (collection_options collections !! index).
    - unfold handleSubmit. by destruct (truthy _). }
  destruct (step config s e) as [s1 reqs]. specialize (IH s1).
  destruct (run config rest s1) as [s2 more]. simpl in *. congruence.
Qed.

(** X11. In configuration mode the collection selector is not rendered
    and a change of it has no effect: through any session the selection
    stays the empty string. *)
Theorem config_chat_never_selects (events : list Event) :
  selectedCollection (run config events initial).1 = ""
  ∧ ∀ collections, selector_shown config collections = false.
Proof. split; [apply run_config_selection | done]. Qed.

End ChatInterfaceMoreFacts.

Module ScrapeFormMoreFacts.
Import JS JSFacts JSMore JSMoreFacts ScrapeForm ScrapeFormView.

Lemma scrape_submit_sends (respond : Request -> Response) (s : State) :
  sent (handleSubmit respond s)
  = (if blank (prompt s) then []
     else [scrape_request (prompt s) (sourceType s)])
  ∧ (blank (prompt s) = true →
     handleSubmit respond s = {| next := s; sent := []; created := [] |}).
Proof.
  unfold handleSubmit. rewrite truthy_trim.
  destruct (blank (prompt s)); simpl; [done|].
  by destruct (respond _) as [?|?|[?|]].
Qed.

(** X12. Submitting the scrape form sends a request exactly when the
    prompt has a character that is not white space; on an empty or blank
    prompt the handler changes nothing, reports no job and leaves the
    error line as it was. The submit button is disabled exactly while a
    request is pending or the prompt is blank. *)
Theorem scrape_request_needs_text (respond : Request -> Response) (s : State) :
  sent (handleSubmit respond s)
  = (if blank (prompt s) then []
     else [scrape_request (prompt s) (sourceType s)])
  ∧ (if blank (prompt s)
     then handleSubmit respond s = {| next := s; sent := []; created := [] |}
     else isLoading (next (handleSubmit respond s)) = false)
  ∧ submit_disabled s = isLoading s || blank (prompt s).
Proof.
  unfold handleSubmit, submit_disabled. rewrite truthy_trim.
  destruct (blank (prompt s)); simpl; [done|].
  by destruct (respond _) as [?|?|[?|]].
Qed.

Lemma step_counts (s : State) (e : Event) :
  (length (created (step s e)) ≤ length (sent (step s e)))%nat
  ∧ ∀ req, req ∈ sent (step s e) →
      ∃ text, blank text = false
              ∧ request_prompt req = Some (JStr (trim text)).
Proof.
  destruct e as [value|index|respond]; simpl.
  - split; [lia|]. by intros ? ?%elem_of_nil.
  - destruct (sourceType_options !! index) as [[??]|]; simpl;
      (split; [lia|]; by intros ? ?%elem_of_nil).
  - unfold handleSubmit. rewrite truthy_trim.
    destruct (blank (prompt s)) eqn:Hb; simpl.
    { split; [lia|]. by intros ? ?%elem_of_nil. }
    split.
    + destruct (respond _) as [?|?|[?|]]; simpl; lia.
    + intros req Hreq. exists (prompt s). split; [done|].
      by destruct (respond _) as [?|?|[?|]];
        apply list_elem_of_singleton in Hreq as ->.
Qed.

(** A prompt of white space beyond ASCII is blank like one of blanks:
    nothing is sent and the button is disabled; around a text it is
    trimmed from the prompt that is sent. *)
Lemma scrape_prompt_of_unicode_white_space :
  let s := next (step initial (ChangePrompt no_break_space)) in
  let s' := next (step initial
                    (ChangePrompt (no_break_space ++ "Scrape example.com"
                                   ++ ideographic_space))) in
  handleSubmit accept s = {| next := s; sent := []; created := [] |}
  ∧ submit_disabled s = true
  ∧ request_prompt <$> sent (handleSubmit accept s')
    = [Some (JStr "Scrape example.com")].
Proof. by vm_compute. Qed.

(** X13. Whatever the session, the prompt of every scrape request sent
    is not empty and neither starts nor ends with white space; and no
    more jobs are reported to the page than requests were sent. *)
Theorem scrape_prompts_are_trimmed (events : list Event) :
  (length (created (run events initial)) ≤ length (sent (run events initial)))%nat
  ∧ ∀ req, req ∈ sent (run events initial) →
      ∃ text, request_prompt req = Some (JStr text)
              ∧ text ≠ ""
              ∧ starts_with_space text = false
              ∧ ends_with_space text = false.
Proof.
  generalize initial as s. induction events as [|e rest IH]; intros s; simpl.
  { split; [lia|]. by intros ? ?%elem_of_nil. }
  destruct (step_counts s e) as [Hc Hreq].
  destruct (IH (next (step s e))) as [Hc' Hreq'].
  rewrite !length_app. split; [lia|].
  intros req [Hin|Hin]%elem_of_app; [|by apply Hreq'].
  destruct (Hreq req Hin) as (text & Hb & ->).
  exists (trim text). destruct (trim_no_space text) as [Hs He].
  split_and!; try done.
  intros Hempty%trim_empty_iff. congruence.
Qed.

Lemma scrape_prompts_are_trimmed_witness :
  let events := [ChangePrompt "  Scrape https://example.com/blog  ";
                 ChangeSourceType 1; Submit accept] in
  let req := scrape_request "  Scrape https://example.com/blog  " "firecrawl" in
  req ∈ sent (run events initial)
  ∧ ∃ text, request_prompt req = Some (JStr text)
            ∧ text ≠ ""
            ∧ starts_with_space text = false
            ∧ ends_with_space text = false.
Proof.
  intros events req.
  assert (Hin : req ∈ sent (run events initial)).
  { replace (sent (run events initial)) with [req] by (by vm_compute).
    by apply list_elem_of_singleton. }
  split; [exact Hin|].
  destruct (scrape_prompts_are_trimmed events) as [_ Hall].
  exact (Hall req Hin).
Defined.

(** X14. A submission that fails, by an HTTP error or a thrown error,
    keeps the prompt and the method: submitting again sends the same
    request once more, and nothing was reported as created. *)
Theorem failed_scrape_can_be_retried (respond retry : Request -> Response)
  (s : State) :
  (∀ job_id, respond (scrape_request (prompt s) (sourceType s)) ≠ Created job_id) →
  sent (handleSubmit retry (next (handleSubmit respond s)))
  = sent (handleSubmit respond s)
  ∧ created (handleSubmit respond s) = []
  ∧ prompt (next (handleSubmit respond s)) = prompt s
  ∧ sourceType (next (handleSubmit respond s)) = sourceType s.
Proof.
  intros Hfail.
  destruct (scrape_submit_sends respond s) as (Hsent & Hstate).
  destruct (blank (prompt s)) eqn:Hb.
  { rewrite Hstate by done. simpl.
    destruct (scrape_submit_sends retry s) as (-> & _). by rewrite Hb. }
  assert (Hkeep : prompt (next (handleSubmit respond s)) = prompt s
                  ∧ sourceType (next (handleSubmit respond s)) = sourceType s
                  ∧ created (handleSubmit respond s) = []).
  { unfold handleSubmit. rewrite truthy_trim, Hb. simpl.
    destruct (respond _) as [job_id|?|[?|]] eqn:Hr; try done.
    by destruct (Hfail job_id). }
  destruct Hkeep as (Hp & Hm & Hc).
  destruct (scrape_submit_sends retry (next (handleSubmit respond s)))
    as (-> & _).
  rewrite Hp, Hm, Hb, Hsent. done.
Qed.

Lemma failed_scrape_can_be_retried_witness :
  let s := next (step initial (ChangePrompt "Scrape all articles from https://example.com/blog")) in
  (∀ job_id, refuse (scrape_request (prompt s) (sourceType s)) ≠ Created job_id)
  ∧ sent (handleSubmit accept (next (handleSubmit refuse s)))
    = sent (handleSubmit refuse s)
  ∧ created (handleSubmit refuse s) = [].
Proof.
  intros s.
  assert (Hfail : ∀ job_id,
            refuse (scrape_request (prompt s) (sourceType s)) ≠ Created job_id)
    by done.
  destruct (failed_scrape_can_be_retried refuse accept s Hfail) as (H1 & H2 & _).
  by split_and!.
Defined.

(** X15. After a submission that succeeds the prompt is cleared, so the
    id is reported once and an immediate second submission sends
    nothing. *)
Theorem accepted_scrape_is_not_sent_twice (respond again : Request -> Response)
  (s : State) (job_id : string) :
  blank (prompt s) = false →
  respond (scrape_request (prompt s) (sourceType s)) = Created job_id →
  created (handleSubmit respond s) = [job_id]
  ∧ error (next (handleSubmit respond s)) = ""
  ∧ handleSubmit again (next (handleSubmit respond s))
    = {| next := next (handleSubmit respond s); sent := []; created := [] |}.
Proof.
  intros Hb Hr.
  assert (Hnext : handleSubmit respond s
                  = {| next := {| prompt := ""; sourceType := sourceType s;
                                  isLoading := false; error := "" |};
                       sent := [scrape_request (prompt s) (sourceType s)];
                       created := [job_id] |}).
  { unfold handleSubmit. by rewrite truthy_trim, Hb, Hr. }
  rewrite Hnext. by split_and!.
Qed.

Lemma accepted_scrape_is_not_sent_twice_witness :
  let s := next (step initial (ChangePrompt "Get product information from shopify store")) in
  blank (prompt s) = false
  ∧ accept (scrape_request (prompt s) (sourceType s)) = Created "job-1"
  ∧ created (handleSubmit accept s) = ["job-1"]
  ∧ sent (handleSubmit accept (next (handleSubmit accept s))) = [].
Proof.
  intros s.
  destruct (accepted_scrape_is_not_sent_twice accept accept s "job-1"
              eq_refl eq_refl) as (H1 & _ & H3).
  split_and!; [reflexivity | reflexivity | exact H1 | by rewrite H3].
Defined.

End ScrapeFormMoreFacts.

Module CollectionsListMoreFacts.
Import JS JSFacts CollectionsList CollectionsListMore.

Lemma fetchCollections_sent (respond : Request -> Response) (s : State) :
  sent (fetchCollections respond s) = [list_request]
  ∧ notified (fetchCollections respond s) = []
  ∧ isLoading (next (fetchCollections respond s)) = false
  ∧ selectedCollection (next (fetchCollections respond s)) = selectedCollection s.
Proof.
  unfold fetchCollections. by destruct (respond list_request) as [?|?|[?|]].
Qed.

Lemma handleDeleteCollection_sent (respond : Request -> Response)
  (collectionName : string) (s : State) :
  sent (handleDeleteCollection true respond collectionName s)
  = delete_request collectionName
    :: match respond (delete_request collectionName) with
       | Answered _ => [list_request]
       | _ => []
       end.
Proof.
  unfold handleDeleteCollection. cbn [negb].
  destruct (respond (delete_request collectionName)) as [?|?|[?|]]; cbn; try done.
  match goal with |- context [fetchCollections ?r ?st] =>
    by destruct (fetchCollections_sent r st) as (-> & _) end.
Qed.

(** X16. A deletion that is not confirmed does nothing at all. A
    confirmed one sends the DELETE for the name and then, exactly when
    that was answered with a 2xx, the GET that refreshes the list; when
    the DELETE fails the list and the selection are left as they were. *)
Theorem deletion_refreshes_only_on_success (respond : Request -> Response)
  (collectionName : string) (s : State) :
  handleDeleteCollection false respond collectionName s
  = {| next := s; sent := []; notified := [] |}
  ∧ sent (handleDeleteCollection true respond collectionName s)
    = delete_request collectionName
      :: match respond (delete_request collectionName) with
         | Answered _ => [list_request]
         | _ => []
         end
  ∧ match respond (delete_request collectionName) with
    | Answered _ => True
    | _ =>
        collections (next (handleDeleteCollection true respond collectionName s))
        = collections s
        ∧ isLoading (next (handleDeleteCollection true respond collectionName s))
          = isLoading s
    end
  ∧ selectedCollection (next (handleDeleteCollection true respond collectionName s))
    = selectedCollection s.
Proof.
  unfold handleDeleteCollection. cbn [negb].
  destruct (respond (delete_request collectionName)) as [?|?|[?|]]; cbn; try done.
  match goal with |- context [fetchCollections ?r ?st] =>
    destruct (fetchCollections_sent r st) as (-> & _ & _ & ->) end.
  done.
Qed.

Lemma collections_step_sent (has_callback : bool) (s : State) (e : Event) :
  ∃ gets,
    sent (step has_callback s e)
    = ((delete_request <$> confirmed_deletions [e]) ++ gets)%list
    ∧ Forall (fun r => r = list_request) gets.
Proof.
  destruct e as [respond|c|confirmed respond collectionName]; simpl.
  - exists [list_request].
    destruct (fetchCollections_sent respond s) as (-> & _). by repeat constructor.
  - by exists [].
  - destruct confirmed.
    + rewrite handleDeleteCollection_sent.
      eexists. split; [reflexivity|].
      destruct (respond _); by repeat constructor.
    + by exists [].
Qed.

Lemma confirmed_deletions_cons (e : Event) (rest : list Event) :
  confirmed_deletions (e :: rest)
  = (confirmed_deletions [e] ++ confirmed_deletions rest)%list.
Proof. by destruct e as [?|?|[|] ? ?]. Qed.

(** X17. Whatever the session, every DELETE request sent is for a name
    whose deletion was confirmed in the dialog, and every other request
    is the GET of [/collections]: nothing is deleted without a
    confirmation. *)
Theorem nothing_deleted_without_confirmation (has_callback : bool)
  (events : list Event) (s : State) (req : Request) :
  req ∈ sent (run has_callback events s) →
  match method req with
  | DELETE =>
      ∃ collectionName,
        collectionName ∈ confirmed_deletions events
        ∧ req = delete_request collectionName
  | GET => req = list_request
  end.
Proof.
  revert s. induction events as [|e rest IH]; intros s.
  { by intros ?%elem_of_nil. }
  rewrite confirmed_deletions_cons. cbn [run sent].
  destruct (collections_step_sent has_callback s e) as (gets & -> & Hgets).
  rewrite !elem_of_app. intros [[Hin|Hin]|Hin].
  - apply list_elem_of_fmap in Hin as (collectionName & -> & Hc). simpl.
    exists collectionName. split; [|done]. apply elem_of_app. by left.
  - rewrite Forall_forall in Hgets. by rewrite (Hgets req Hin).
  - specialize (IH _ Hin). destruct (method req); [done|].
    destruct IH as (collectionName & Hc & ->). exists collectionName.
    split; [|done]. apply elem_of_app. by right.
Qed.

Lemma nothing_deleted_without_confirmation_witness :
  let events := [Refresh read_only_server; Delete false emptied_server "Blog";
                 Delete true emptied_server "Blog"] in
  delete_request "Blog" ∈ sent (run true events initial)
  ∧ ∃ collectionName,
      collectionName ∈ confirmed_deletions events
      ∧ delete_request "Blog" = delete_request collectionName.
Proof.
  intros events.
  assert (Hin : delete_request "Blog" ∈ sent (run true events initial)).
  { vm_compute. apply list_elem_of_further, list_elem_of_here. }
  split; [exact Hin|].
  exact (nothing_deleted_without_confirmation true events initial
           (delete_request "Blog") Hin).
Defined.

Lemma http_error_is_truthy (status : nat) :
  truthy ("HTTP error! status: " ++ pretty status) = true.
Proof. reflexivity. Qed.

(** X18. When a confirmed deletion is answered with an HTTP error, the
    whole grid gives way to the error panel with the status in its
    text, although the list itself is intact; a refresh that succeeds
    afterwards clears the error and shows what the server answered. *)
Theorem failed_deletion_hides_the_grid (respond retry : Request -> Response)
  (collectionName : string) (s : State) (status : nat)
  (found : list Collection) :
  isLoading s = false →
  respond (delete_request collectionName) = HttpError status →
  retry list_request = Answered (Some found) →
  let failed := next (handleDeleteCollection true respond collectionName s) in
  render failed = ErrorView ("HTTP error! status: " ++ pretty status)
  ∧ collections failed = collections s
  ∧ collections (next (fetchCollections retry failed)) = found
  ∧ render (next (fetchCollections retry failed))
    = if (length found =? 0)%nat then EmptyView
      else GridView (length found)
                    (render_card (selectedCollection s) <$> found).
Proof.
  intros Hl Hr Hretry failed. subst failed.
  unfold handleDeleteCollection. cbn [negb]. rewrite Hr. cbn [next].
  unfold fetchCollections. rewrite Hretry. cbn.
  unfold render at 1. cbn. rewrite Hl.
  by rewrite http_error_is_truthy.
Qed.

Lemma failed_deletion_hides_the_grid_witness :
  let s := next (fetchCollections read_only_server initial) in
  (isLoading s = false
   ∧ read_only_server (delete_request "Blog") = HttpError 403
   ∧ read_only_server list_request = Answered (Some [sample_collection]))
  ∧ render (next (handleDeleteCollection true read_only_server "Blog" s))
    = ErrorView ("HTTP error! status: " ++ pretty 403%nat)
  ∧ collections (next (handleDeleteCollection true read_only_server "Blog" s))
    = collections s.
Proof.
  intros s.
  destruct (failed_deletion_hides_the_grid read_only_server read_only_server
              "Blog" s 403 [sample_collection] eq_refl eq_refl eq_refl)
    as (H1 & H2 & _).
  split; [by split_and!|]. by split.
Defined.

(** X19. When the grid is shown the component is neither loading nor in
    error, there is one card per collection, in order and keyed by its
    name, and the count of the heading is the number of cards. *)
Theorem grid_lists_every_collection (s : State) (total : nat) (cards : list Card) :
  render s = GridView total cards →
  isLoading s = false ∧ error s = ""
  ∧ total = length cards ∧ (0 < total)%nat
  ∧ card_key <$> cards = name <$> collections s
  ∧ ∀ i card, cards !! i = Some card →
      (card_highlighted card = true ↔ selectedCollection s = card_key card).
Proof.
  unfold render. destruct (isLoading s); [done|].
  destruct (truthy (error s)) eqn:He; [done|].
  destruct (length (collections s) =? 0)%nat eqn:Hlen; [done|].
  apply Nat.eqb_neq in Hlen. intros [= <- <-].
  split_and!; try done.
  - destruct (String.eqb_spec (error s) "") as [->|Hne]; [done|].
    apply truthy_spec in Hne. congruence.
  - by rewrite length_fmap.
  - lia.
  - rewrite <- list_fmap_compose. by apply list_fmap_ext.
  - intros i card. rewrite list_lookup_fmap.
    destruct (collections s !! i) as [c'|]; [|done]. intros [= <-]. simpl.
    apply String.eqb_eq.
Qed.

Lemma grid_lists_every_collection_witness :
  let s := next (fetchCollections read_only_server initial) in
  render s = GridView 1 [render_card "" sample_collection]
  ∧ isLoading s = false ∧ error s = "".
Proof.
  intros s.
  assert (Hr : render s = GridView 1 [render_card "" sample_collection])
    by reflexivity.
  destruct (grid_lists_every_collection s 1 _ Hr) as (H1 & H2 & _).
  by split_and!.
Defined.

(** X20. The strip of property names of a card shows the first three
    names and counts the rest: what is shown plus what is counted is the
    number of properties, at most three names are shown, and "+0 more"
    never appears. A collection without properties shows nothing. *)
Theorem preview_accounts_for_every_property (c : Collection) :
  fst (preview c) = property_name <$> take 3 (default [] (properties c))
  ∧ (length (fst (preview c)) ≤ 3)%nat
  ∧ (length (fst (preview c)) + default 0%nat (snd (preview c)))%nat
    = length (default [] (properties c))
  ∧ snd (preview c) ≠ Some 0%nat.
Proof.
  unfold preview. destruct (properties c) as [ps|]; simpl;
    [|split_and!; try done; lia].
  destruct ps as [|p1 [|p2 [|p3 [|p4 ps]]]]; simpl;
    split_and!; try done; lia.
Qed.

Lemma run_isLoading (has_callback : bool) (events : list Event) (s : State) :
  isLoading s = false → isLoading (next (run has_callback events s)) = false.
Proof.
  revert s. induction events as [|e rest IH]; intros s Hs; simpl; [done|].
  apply IH. destruct e as [respond|c|confirmed respond collectionName]; simpl.
  - by destruct (fetchCollections_sent respond s) as (_ & _ & -> & _).
  - done.
  - destruct confirmed; simpl; [|done].
    unfold handleDeleteCollection. cbn [negb].
    destruct (respond (delete_request collectionName)) as [?|?|[?|]]; try done.
    cbn [next]. by destruct (fetchCollections_sent respond
      {| collections := collections s; isLoading := true; error := error s;
         selectedCollection := selectedCollection s |}) as (_ & _ & -> & _).
Qed.

Lemma run_notified (has_callback : bool) (events : list Event) (s : State) :
  notified (run has_callback events s)
  = if has_callback then clicked events else [].
Proof.
  revert s. induction events as [|e rest IH]; intros s; simpl.
  { by destruct has_callback. }
  rewrite IH. destruct e as [respond|c|confirmed respond collectionName]; simpl.
  - by destruct (fetchCollections_sent respond s) as (_ & -> & _).
  - by destruct has_callback.
  - unfold handleDeleteCollection. destruct confirmed; simpl; [|done].
    by destruct (respond _) as [?|?|[?|]].
Qed.

(** X21. Once the fetch of the mount has come back, with whatever
    outcome, the component is out of its loading view whenever no request
    is pending (every handler run to completion); and the page is told
    of exactly the collections that were clicked, in order, or of
    nothing when it passed no callback. *)
Theorem spinner_ends_and_clicks_are_reported (has_callback : bool)
  (respond : Request -> Response) (events : list Event) :
  isLoading (next (run has_callback (Refresh respond :: events) initial)) = false
  ∧ render (next (run has_callback (Refresh respond :: events) initial))
    ≠ LoadingView
  ∧ notified (run has_callback (Refresh respond :: events) initial)
    = if has_callback then clicked events else [].
Proof.
  assert (Hl : isLoading (next (run has_callback (Refresh respond :: events)
                                  initial)) = false).
  { simpl. apply run_isLoading.
    by destruct (fetchCollections_sent respond initial) as (_ & _ & -> & _). }
  split_and!; [done | |].
  - unfold render. rewrite Hl.
    destruct (truthy _); [done|]. by destruct (_ =? _)%nat.
  - by rewrite run_notified.
Qed.

End CollectionsListMoreFacts.

Module HomeMoreFacts.
Import Home HomeMore.

Lemma step_jobs (s : State) (e : Event) : jobs (step s e) = jobs s.
Proof.
  destruct e as [index|jobId [found|]|[found|]]; simpl; try done.
  by destruct (tabs !! index) as [[[??]?]|].
Qed.

Lemma run_jobs (events : list Event) (s : State) : jobs (run events s) = jobs s.
Proof.
  revert s. induction events as [|e rest IH]; intros s; [done|].
  unfold run in *. simpl. by rewrite IH, step_jobs.
Qed.

(** X22. The page never puts a job in its list: whatever happens, a job
    reported by the scrape form included, the "Recent Jobs" box shows
    "No jobs yet", and the job status component it mounts never sends a
    status request. *)
Theorem page_never_lists_a_job (events : list Event)
  (fetches : list (string -> JobStatus.FetchResult)) :
  jobs (run events initial) = []
  ∧ recent_jobs (run events initial) = JobStatus.NoJobsYet
  ∧ JobStatus.ticks fetches (JobStatus.mount (jobs (run events initial)))
    = (JobStatus.mount [], replicate (length fetches) []).
Proof.
  assert (Hj : jobs (run events initial) = []) by apply run_jobs.
  unfold recent_jobs. rewrite Hj. split_and!; [done | done |].
  by apply JobStatusMoreFacts.ticks_idle.
Qed.

Lemma step_tab (s : State) (e : Event) :
  activeTab s ∈ tab_ids → activeTab (step s e) ∈ tab_ids.
Proof.
  intros Hs. destruct e as [index|jobId [found|]|[found|]]; simpl; try done.
  destruct (tabs !! index) as [[[tab label] icon]|] eqn:Hi; [|done].
  simpl. apply list_elem_of_fmap. exists (tab, label, icon).
  split; [done|]. by eapply list_elem_of_lookup_2.
Qed.

Lemma run_tab (events : list Event) (s : State) :
  activeTab s ∈ tab_ids → activeTab (run events s) ∈ tab_ids.
Proof.
  revert s. induction events as [|e rest IH]; intros s Hs; [done|].
  unfold run in *. simpl. by apply IH, step_tab.
Qed.

(** X23. Whatever the sequence of clicks and fetches, the active tab is
    one of the four of the navigation and the primary column mounts
    exactly one panel for it; a chat panel gets the chat type of its tab
    and the collections the page holds at that moment. *)
Theorem one_panel_for_the_active_tab (events : list Event) :
  let s := run events initial in
  activeTab s ∈ tab_ids
  ∧ primary_content s
    = [if activeTab s =? "scrape" then ScrapePanel
       else if activeTab s =? "chat-data"
            then ChatPanel ChatInterface.data (collections s)
       else if activeTab s =? "chat-config"
            then ChatPanel ChatInterface.config (collections s)
       else CollectionsPanel].
Proof.
  intros s.
  assert (Ht : activeTab s ∈ tab_ids).
  { apply run_tab. unfold tab_ids. simpl. set_solver. }
  split; [done|]. unfold primary_content.
  unfold tab_ids in Ht. simpl in Ht.
  rewrite !elem_of_cons, elem_of_nil in Ht.
  destruct Ht as [->|[->|[->|[->|[]]]]]; reflexivity.
Qed.

Lemma bodies_snoc (events : list Event) (e : Event) :
  bodies (events ++ [e]) = (bodies events ++ bodies [e])%list.
Proof. unfold bodies. by rewrite omap_app. Qed.

(** X24. The collections the page holds are those of the last body it
    received, by the fetch of the mount, one through the [onRefresh] it
    hands down, or the fetch that follows a created job: the list of its [collections] member, and the
    empty list when the body has no such member (the status of the
    answer is not looked at). A request that is rejected leaves the list
    as it is. *)
Theorem page_collections_are_the_last_body (events : list Event) :
  collections (run events initial)
  = default [] (mjoin (last (bodies events))).
Proof.
  induction events as [|e events IH] using rev_ind; [done|].
  unfold run in *. rewrite foldl_snoc, bodies_snoc.
  destruct e as [index|jobId [found|]|[found|]]; simpl.
  - rewrite app_nil_r.
    by destruct (tabs !! index) as [[[??]?]|].
  - by rewrite last_snoc.
  - by rewrite app_nil_r.
  - by rewrite last_snoc.
  - by rewrite app_nil_r.
Qed.

End HomeMoreFacts.

Module DeployFacts.
Import Deploy.

Lemma is_empty_spec (env : gmap string string) (var : string) :
  is_empty env var = true ↔ env !! var = None ∨ env !! var = Some "".
Proof.
  unfold is_empty, expand. destruct (env !! var) as [v|]; simpl.
  - rewrite String.eqb_eq. split; [intros ->; by right | by intros [|[= ->]]].
  - split; [by left | done].
Qed.

Lemma missing_vars_spec (env : gmap string string) (var : string) :
  var ∈ missing_vars env
  ↔ var ∈ required_vars ∧ (env !! var = None ∨ env !! var = Some "").
Proof.
  unfold missing_vars. rewrite list_elem_of_filter, is_empty_spec. tauto.
Qed.

(** X25. The deployment script stops with status 1 exactly when one of
    the five required keys is unset or empty; the keys it reports are
    those, in the order of the list; and in that case it has created
    nothing on the platform: no project, secret, addon or service. *)
Theorem deploy_stops_when_a_key_is_missing (host : Host)
  (env : gmap string string) :
  ((deploy host env).1 = 1%nat ↔ missing_vars env ≠ [])
  ∧ ((deploy host env).1 = 0%nat ↔ missing_vars env = [])
  ∧ (∀ var, var ∈ missing_vars env
            ↔ var ∈ required_vars ∧ (env !! var = None ∨ env !! var = Some ""))
  ∧ missing_vars env `sublist_of` required_vars
  ∧ ((deploy host env).1 = 1%nat →
     Forall (fun c => changes_platform c = false) (deploy host env).2).
Proof.
  unfold deploy.
  destruct (missing_vars env) as [|var rest] eqn:Hm; cbn [length Nat.eqb negb fst snd].
  - split_and!; try done.
    + intros var. rewrite <- Hm. apply missing_vars_spec.
    + apply sublist_nil_l.
  - split_and!; try done.
    + intros var'. rewrite <- Hm. apply missing_vars_spec.
    + rewrite <- Hm. apply sublist_filter.
    + intros _. by destruct (cli_found host), (logged_in host); repeat constructor.
Qed.

Lemma deploy_stops_when_a_key_is_missing_witness :
  let env := delete "COHERE_API_KEY" sample_env in
  (deploy sample_host env).1 = 1%nat
  ∧ missing_vars env ≠ []
  ∧ Forall (fun c => changes_platform c = false) (deploy sample_host env).2.
Proof.
  intros env.
  assert (Hs : (deploy sample_host env).1 = 1%nat) by (by vm_compute).
  destruct (deploy_stops_when_a_key_is_missing sample_host env)
    as (Hone & _ & _ & _ & Hnone).
  split_and!; [exact Hs | by apply Hone | by apply Hnone].
Defined.

(** X26. When the five required keys are all set and not empty, the
    script ends with status 0 and has stored each of them under its own
    name with the value of the environment; the optional
    [WEAVIATE_API_KEY] is stored exactly when it is set and not empty;
    and the project is created before anything else on the platform. *)
Theorem deploy_stores_every_key (host : Host) (env : gmap string string) :
  missing_vars env = [] →
  (deploy host env).1 = 0%nat
  ∧ (∀ var, var ∈ required_vars →
        ∃ value, env !! var = Some value ∧ value ≠ ""
                 ∧ CreateSecret var value ∈ (deploy host env).2)
  ∧ (∀ value, CreateSecret "WEAVIATE_API_KEY" value ∈ (deploy host env).2
              ↔ env !! "WEAVIATE_API_KEY" = Some value ∧ value ≠ "")
  ∧ head (filter (fun c => changes_platform c = true) (deploy host env).2)
    = Some (CreateProject "ulti-weavi-guy").
Proof.
  intros Hm. unfold deploy. rewrite Hm. cbn [length Nat.eqb negb fst snd].
  assert (Hset : ∀ var, var ∈ required_vars →
            ∃ value, env !! var = Some value ∧ value ≠ ""
                     ∧ expand env var = value).
  { intros var Hvar.
    destruct (env !! var) as [value|] eqn:Hv.
    - exists value. split; [done|]. split; [|by unfold expand; rewrite Hv].
      intros ->. assert (var ∈ missing_vars env) as Hin
        by (apply missing_vars_spec; auto).
      rewrite Hm in Hin. by apply elem_of_nil in Hin.
    - assert (var ∈ missing_vars env) as Hin
        by (apply missing_vars_spec; auto).
      rewrite Hm in Hin. by apply elem_of_nil in Hin. }
  split_and!; [done | | |].
  - intros var Hvar. destruct (Hset var Hvar) as (value & Hv & Hne & Hexp).
    exists value. split_and!; try done.
    apply elem_of_app. right. apply elem_of_app. left.
    unfold secret. unfold required_vars in Hvar.
    rewrite !elem_of_cons, elem_of_nil in Hvar.
    destruct Hvar as [->|[->|[->|[->|[->|[]]]]]]; rewrite Hexp;
      rewrite !elem_of_cons; auto 10.
  - intros value. unfold secret, is_empty, expand.
    destruct (env !! "WEAVIATE_API_KEY") as [w|]; simpl.
    + destruct (String.eqb_spec w "") as [->|Hw]; simpl.
      * split; [|by intros [[= <-] ?]].
        destruct (cli_found host), (logged_in host); simpl;
          rewrite !elem_of_cons, elem_of_nil;
          intros H; repeat (destruct H as [[=]|H]); done.
      * split; [|intros [[= <-] _]; apply elem_of_app; right;
                 rewrite !elem_of_cons; auto 20].
        destruct (cli_found host), (logged_in host); simpl;
          rewrite !elem_of_cons, elem_of_nil;
          intros H; repeat (destruct H as [[=]|H]); subst; done.
    + split; [|by intros [[=] ?]].
      destruct (cli_found host), (logged_in host); simpl;
        rewrite !elem_of_cons, elem_of_nil;
        intros H; repeat (destruct H as [[=]|H]); done.
  - by destruct (cli_found host), (logged_in host).
Qed.

Lemma deploy_stores_every_key_witness :
  missing_vars sample_env = []
  ∧ (deploy sample_host sample_env).1 = 0%nat
  ∧ CreateSecret "COHERE_API_KEY" "co-1" ∈ (deploy sample_host sample_env).2.
Proof.
  assert (Hm : missing_vars sample_env = []) by (by vm_compute).
  destruct (deploy_stores_every_key sample_host sample_env Hm) as (H0 & Hall & _).
  split_and!; [exact Hm | exact H0 |].
  destruct (Hall "COHERE_API_KEY") as (value & Hv & _ & Hin).
  { unfold required_vars. rewrite !elem_of_cons. auto 10. }
  assert (value = "co-1") as -> by (vm_compute in Hv; congruence).
  exact Hin.
Defined.

End DeployFacts.

Module ChatInterfaceAsyncFacts.
Import JS JSMore ChatInterface ChatInterfaceView ChatInterfaceAsync.
Import JSMoreFacts.

(** Run without interruption, the two halves are [handleSubmit] run to
    completion: the same state and the same request. *)
Lemma chat_submit_is_start_then_settle (type : ChatType) (now : nat)
  (respond : Request -> Response) (s : State) :
  handleSubmit type now respond s
  = match submit_start type now s with
    | (s1, [req]) => (submit_settle now (respond req) s1, [req])
    | (s1, _) => (s1, [])
    end.
Proof.
  unfold handleSubmit, submit_start.
  destruct (negb (truthy (trim (input s)))); [done|].
  unfold submit_settle, reply_text. cbn [messages input selectedCollection content].
  rewrite <- app_assoc. done.
Qed.

Lemma alternating_snoc (ms : list Message) (m : Message) :
  alternating (ms ++ [m])
  = alternating ms
    && match last_sender ms with
       | Some sender => negb (same_sender sender (type m))
       | None => true
       end.
Proof.
  unfold last_sender.
  induction ms as [|a [|b rest] IH]; [done | |].
  - simpl. by rewrite andb_true_r.
  - change (alternating ((a :: b :: rest) ++ [m]))
      with (negb (same_sender (type a) (type b)) && alternating ((b :: rest) ++ [m])).
    rewrite IH.
    change (alternating (a :: b :: rest))
      with (negb (same_sender (type a) (type b)) && alternating (b :: rest)).
    change (last (a :: b :: rest)) with (last (b :: rest)).
    by rewrite andb_assoc.
Qed.

Lemma last_sender_snoc (ms : list Message) (m : Message) :
  last_sender (ms ++ [m]) = Some (type m).
Proof. unfold last_sender. by rewrite last_snoc. Qed.

Lemma step_well_shaped (type : ChatType) (s : State) (e : Event) :
  enabled s e = true → well_shaped s →
  well_shaped (step type s e).1
  ∧ (length (step type s e).2 + in_flight s
     = (if is_settled e then 1 else 0) + in_flight (step type s e).1)%nat.
Proof.
  unfold well_shaped, in_flight. intros He [Halt Hlast].
  destruct e as [value|collections index|now|now r|]; simpl in *.
  - by split.
  - destruct (collection_options collections !! index) as [value|]; [|by split].
    by destruct (selector_shown type collections).
  - apply negb_true_iff in He. unfold submit_start.
    destruct (negb (truthy (trim (input s)))); simpl; [by split_and!|].
    rewrite alternating_snoc, last_sender_snoc, Halt, He. simpl.
    rewrite He in Hlast.
    split; [|done]. split; [|by right].
    by destruct Hlast as [-> | ->].
  - rewrite alternating_snoc, last_sender_snoc, Halt, He. simpl.
    rewrite He in Hlast.
    split; [|done]. split; [|by right].
    by destruct Hlast as [-> | ->].
  - split; [|done]. split; [done | by left].
Qed.

Lemma run_well_shaped (type : ChatType) (events : list Event) (s : State) :
  allowed type events s = true → well_shaped s →
  well_shaped (run type events s).1
  ∧ (length (run type events s).2 + in_flight s
     = settlements events + in_flight (run type events s).1)%nat.
Proof.
  revert s. induction events as [|e rest IH]; intros s Hall Hs; [done|].
  simpl in Hall. apply andb_true_iff in Hall as [He Hrest].
  destruct (step_well_shaped type s e He Hs) as [Hs1 Hc1].
  simpl. destruct (step type s e) as [s1 reqs] eqn:Hstep. simpl in *.
  destruct (IH _ Hrest Hs1) as [Hs2 Hc2].
  destruct (run type rest s1) as [s2 more] eqn:Hrun. simpl in *.
  split; [done|]. rewrite length_app.
  unfold settlements in *. rewrite filter_cons.
  destruct (is_settled e); simpl in *; lia.
Qed.

(** X27. In every session the rendered form allows, clearing while a
    request is pending included, at most one request is in flight: the
    requests sent are those that have settled plus one while the form is
    loading. No two neighbours of the transcript have the same sender,
    and its last message, if any, is the user's while loading and the
    assistant's otherwise. *)
Theorem one_request_in_flight_and_senders_alternate (type : ChatType)
  (events : list Event) :
  allowed type events initial = true →
  alternating (messages (run type events initial).1) = true
  ∧ (last_sender (messages (run type events initial).1) = None
     ∨ last_sender (messages (run type events initial).1)
       = Some (if isLoading (run type events initial).1 then user else assistant))
  ∧ length (run type events initial).2
    = (settlements events + in_flight (run type events initial).1)%nat.
Proof.
  intros Hall.
  destruct (run_well_shaped type events initial Hall) as [[Halt Hlast] Hc].
  { split; [done | by left]. }
  split_and!; try done. change (in_flight initial) with 0%nat in Hc. lia.
Qed.

Lemma one_request_in_flight_and_senders_alternate_witness :
  let events := [Typed " What is new? "; Submitted 1000; Cleared;
                 Settled 1900 (Answered "Nothing"); Typed "And now?";
                 Submitted 2500] in
  allowed data events initial = true
  ∧ alternating (messages (run data events initial).1) = true
  ∧ length (run data events initial).2 = 2%nat.
Proof.
  intros events.
  assert (Hall : allowed data events initial = true) by (by vm_compute).
  destruct (one_request_in_flight_and_senders_alternate data events Hall)
    as (Halt & _ & Hc).
  split_and!; [exact Hall | exact Halt |].
  rewrite Hc. by vm_compute.
Defined.

(** X28. The Clear button stays enabled while a request is pending. When
    it is clicked then, the reply that arrives afterwards is appended to
    the emptied transcript: the transcript is the assistant's message
    alone, without the question it answers. *)
Theorem reply_after_clear_stands_alone (type : ChatType) (now now' : nat)
  (r : Response) (s : State) :
  isLoading s = false → blank (input s) = false →
  allowed type [Submitted now; Cleared; Settled now' r] s = true
  ∧ messages (run type [Submitted now; Cleared; Settled now' r] s).1
    = [{| id := now' + 1; type := assistant;
          content := reply_text r; timestamp := now' |}]
  ∧ exchanges (messages (run type [Submitted now; Cleared; Settled now' r] s).1)
    = false
  ∧ (run type [Submitted now; Cleared; Settled now' r] s).2
    = [chat_request type (selectedCollection s) (trim (input s))].
Proof.
  intros Hl Hb. simpl. unfold submit_start.
  rewrite truthy_trim, Hb, Hl. simpl.
  unfold clear_shown. cbn [messages]. rewrite length_app. simpl.
  replace (0 <? length (messages s) + 1)%nat with true
    by (symmetry; apply Nat.ltb_lt; lia).
  done.
Qed.

Lemma reply_after_clear_stands_alone_witness :
  let s := (step data initial (Typed "Summarize the latest articles")).1 in
  isLoading s = false ∧ blank (input s) = false
  ∧ messages (run data [Submitted 1000; Cleared; Settled 1900 (HttpError 500)] s).1
    = [{| id := 1901; type := assistant;
          content := "Error: HTTP error! status: 500"; timestamp := 1900 |}].
Proof.
  intros s.
  assert (Hl : isLoading s = false) by done.
  assert (Hb : blank (input s) = false) by (by vm_compute).
  destruct (reply_after_clear_stands_alone data 1000 1900 (HttpError 500) s Hl Hb)
    as (_ & Hm & _).
  split_and!; [exact Hl | exact Hb |].
  rewrite Hm. by vm_compute.
Defined.

End ChatInterfaceAsyncFacts.

Module ScrapeFormAsyncFacts.
Import JS JSMore ScrapeForm ScrapeFormAsync.
Import JSMoreFacts.

(** Run without interruption, the two halves are [handleSubmit] run to
    completion. *)
Lemma scrape_submit_is_start_then_settle (respond : Request -> Response)
  (s : State) :
  handleSubmit respond s
  = match submit_start s with
    | (s1, [req]) =>
        {| next := (submit_settle (respond req) s1).1; sent := [req];
           created := (submit_settle (respond req) s1).2 |}
    | (s1, _) => {| next := s1; sent := []; created := [] |}
    end.
Proof.
  unfold handleSubmit, submit_start.
  destruct (negb (truthy (trim (prompt s)))); [done|].
  by destruct (respond _) as [?|?|[?|]].
Qed.

(** X29. The prompt can be edited while a request is pending. The
    request sent carries the prompt as it was at the submission; what is
    typed meanwhile is discarded when the job is accepted and kept when
    the request fails, and either way the form stops loading. *)
Theorem text_typed_while_pending (s : State) (value : string) (r : Response) :
  blank (prompt s) = false →
  (submit_start s).2 = [scrape_request (prompt s) (sourceType s)]
  ∧ isLoading (typed value (submit_start s).1) = true
  ∧ prompt (submit_settle r (typed value (submit_start s).1)).1
    = match r with
      | Created _ => ""
      | _ => value
      end
  ∧ (submit_settle r (typed value (submit_start s).1)).2
    = match r with
      | Created job_id => [job_id]
      | _ => []
      end
  ∧ isLoading (submit_settle r (typed value (submit_start s).1)).1 = false.
Proof.
  intros Hb. unfold submit_start, typed. rewrite truthy_trim, Hb. simpl.
  by destruct r as [?|?|[?|]].
Qed.

Lemma text_typed_while_pending_witness :
  let s := typed "Scrape all blog posts from example.com" initial in
  blank (prompt s) = false
  ∧ prompt (submit_settle (Created "job-1")
              (typed "Process my PDF files" (submit_start s).1)).1 = ""
  ∧ prompt (submit_settle (HttpError 500)
              (typed "Process my PDF files" (submit_start s).1)).1
    = "Process my PDF files".
Proof.
  intros s.
  assert (Hb : blank (prompt s) = false) by (by vm_compute).
  destruct (text_typed_while_pending s "Process my PDF files" (Created "job-1") Hb)
    as (_ & _ & Hok & _).
  destruct (text_typed_while_pending s "Process my PDF files" (HttpError 500) Hb)
    as (_ & _ & Hko & _).
  by split_and!.
Defined.

End ScrapeFormAsyncFacts.

Module JobStatusAsyncFacts.
Import JS JSFacts JobStatus JobStatusFacts JobStatusAsync.

(** The body of the loop, as [settle] runs it for a callback that is
    alone in flight, is [poll_one]. *)
Lemma settle_is_poll_one (time : nat) (fetch : string -> FetchResult)
  (jobs0 : list Job) (st : Loop) (jobId : string) (ids : list string)
  (since : nat) :
  let st1 := poll_one fetch st jobId in
  let w := {| component := {| jobs := jobs0; pollingJobs := nextPolling st |};
              in_flight := [{| updatedJobs := JobStatus.updatedJobs st;
                               hasUpdates := JobStatus.hasUpdates st;
                               awaiting := jobId;
                               remaining := ids |}];
              interval_set_at := since |} in
  ∃ since1,
    settle time 0 (fetch jobId) w
    = match ids with
      | next :: rest =>
          ({| component := {| jobs := jobs0; pollingJobs := nextPolling st1 |};
              in_flight := [{| updatedJobs := JobStatus.updatedJobs st1;
                               hasUpdates := JobStatus.hasUpdates st1;
                               awaiting := next;
                               remaining := rest |}];
              interval_set_at := since1 |}, [next])
      | [] =>
          ({| component :=
                if JobStatus.hasUpdates st1
                then track_active {| jobs := JobStatus.updatedJobs st1;
                                     pollingJobs := nextPolling st1 |}
                else {| jobs := jobs0; pollingJobs := nextPolling st1 |};
              in_flight := [];
              interval_set_at := since1 |}, [])
      end.
Proof.
  intros st1 w. subst st1 w. unfold settle, poll_one.
  cbn [in_flight component lookup list_lookup awaiting updatedJobs hasUpdates
       remaining JobStatus.updatedJobs JobStatus.hasUpdates nextPolling
       pollingJobs jobs].
  destruct (fetch jobId) as [jobData| |];
    [destruct (findIndex jobId (JobStatus.updatedJobs st)) as [jobIndex|]|..];
    destruct ids as [|next rest]; cbn;
    try destruct (is_terminal (status jobData));
    try destruct (JobStatus.hasUpdates st);
    eexists; reflexivity.
Qed.

Lemma run_cons (e : Event) (events : list Event) (w : World) :
  run (e :: events) w
  = ((run events (step w e).1).1, (step w e).2 :: (run events (step w e).1).2).
Proof.
  cbn [run]. destruct (step w e) as [w1 reqs]. cbn [fst snd].
  by destruct (run events w1).
Qed.

Lemma settle_loop (time : nat) (fetch : string -> FetchResult)
  (jobs0 : list Job) (ids : list string) (jobId : string) (st : Loop)
  (since : nat) :
  let st' := foldl (poll_one fetch) st (jobId :: ids) in
  let w := {| component := {| jobs := jobs0; pollingJobs := nextPolling st |};
              in_flight := [{| updatedJobs := JobStatus.updatedJobs st;
                               hasUpdates := JobStatus.hasUpdates st;
                               awaiting := jobId;
                               remaining := ids |}];
              interval_set_at := since |} in
  let events := (fun jobId => Settle time 0 (fetch jobId)) <$> (jobId :: ids) in
  component (run events w).1
  = (if JobStatus.hasUpdates st'
     then track_active {| jobs := JobStatus.updatedJobs st';
                          pollingJobs := nextPolling st' |}
     else {| jobs := jobs0; pollingJobs := nextPolling st' |})
  ∧ in_flight (run events w).1 = []
  ∧ concat (run events w).2 = ids.
Proof.
  revert jobId st since. induction ids as [|next rest IH];
    intros jobId st since; cbn zeta;
    rewrite fmap_cons, run_cons; cbn [step fst snd].
  - destruct (settle_is_poll_one time fetch jobs0 st jobId [] since)
      as [since1 ->]. by cbn.
  - destruct (settle_is_poll_one time fetch jobs0 st jobId (next :: rest) since)
      as [since1 ->]. cbn [fst snd].
    destruct (IH next (poll_one fetch st jobId) since1) as (Hc & Hf & Hl).
    cbn [foldl concat app]. by rewrite Hc, Hf, Hl.
Qed.

(** A firing during which nothing else happens is [tick]: the same next
    state, no callback left in flight, and the same ids fetched in the
    same order. *)
Lemma tick_is_uninterrupted_firing (time since : nat)
  (fetch : string -> FetchResult) (s : State) :
  let w := {| component := s; in_flight := []; interval_set_at := since |} in
  component (run (uninterrupted time fetch s) w).1 = (tick fetch s).1
  ∧ in_flight (run (uninterrupted time fetch s) w).1 = []
  ∧ concat (run (uninterrupted time fetch s) w).2 = (tick fetch s).2.
Proof.
  intros w. rewrite tick_requests. subst w.
  unfold uninterrupted, tick. rewrite run_cons. cbn [step fst snd].
  unfold fire. cbn [component in_flight interval_set_at].
  destruct s as [jobs0 polling]. cbn [pollingJobs jobs].
  destruct polling as [|jobId ids]; [done|].
  cbn [length Nat.eqb app fst snd concat].
  destruct (settle_loop time fetch jobs0 ids jobId
              {| JobStatus.updatedJobs := jobs0; JobStatus.hasUpdates := false;
                 nextPolling := jobId :: ids; requested := [] |} since)
    as (Hc & Hf & Hl).
  cbn [nextPolling JobStatus.updatedJobs JobStatus.hasUpdates] in Hc, Hf, Hl.
  rewrite Hc, Hf, Hl. split_and!; try done.
  by destruct (JobStatus.hasUpdates _).
Qed.

(** C7. On a slow network the polling client fetches a job again after
    the status query for it has returned a terminal status. Two jobs are
    tracked. The first callback of the interval (period
    [POLL_INTERVAL_MS]) learns that job 1 has completed and takes it out
    of the polling set; its fetch for job 2 takes longer than the
    period, so the interval fires again meanwhile, and the second
    callback copies the list in which job 1 is still running. When it
    returns it writes that copy back: job 1 is running again in the
    list, is back in the polling set, and the next firing fetches it. *)
Theorem stale_firing_polls_finished_job_again :
  let w := (run slow_network (start [sample_running; sample_pending])).1 in
  slow_network !! 1%nat = Some (Settle 2100 0 (Ok sample_completed))
  ∧ is_terminal (status sample_completed) = true
  ∧ id sample_completed = "job-1"
  ∧ timely 0 slow_network (start [sample_running; sample_pending]) = true
  ∧ (run slow_network (start [sample_running; sample_pending])).2
    = [["job-1"]; ["job-2"]; ["job-2"]; []; []; ["job-1"]]
  ∧ pollingJobs
      (component (run (take 2 slow_network)
                      (start [sample_running; sample_pending])).1)
    = ["job-2"]
  ∧ jobs (component w) = [sample_running; sample_started]
  ∧ pollingJobs (component w) = ["job-1"; "job-2"].
Proof. by vm_compute. Qed.

End JobStatusAsyncFacts.

Module StatusQueryFacts.
Import JS JobStatus StatusQuery.

Section Answers.

Variable stage_weights : Orchestrator.Kind -> list nat.


End Answers.


End StatusQueryFacts.
